(** * app_meshed: the function registry and the DAG service

    A shallow embedding of
      - [app_meshed/services/function_registry.py] (class [FunctionRegistry]),
      - [app_meshed/services/dag_service.py] (class [DAGService]),
    together with the properties the specification states about them.

    Python dictionaries whose iteration order is irrelevant to the code are
    finite maps ([gmap]); the two dictionaries handed to the graph library
    ([funcs] and [binds]) keep their insertion order and are association
    lists with unique keys.  Exceptions are values of type [exn]; a Python
    function that may raise returns a [result]. *)

From Stdlib Require Import ZArith String Ascii List Lia.
From stdpp Require Import gmap strings list fin_maps.

Local Open Scope string_scope.
Local Open Scope list_scope.

(** ** Python values and exceptions *)

(** The JSON-shaped values that flow through the service: execution inputs,
    results, literal parameter overrides.  JSON numbers are integers here. *)
#[warnings="-register-all"]
Inductive pyval : Type :=
| PNone
| PBool (b : bool)
| PInt (z : Z)
| PStr (s : string)
| PList (l : list pyval)
| PDict (d : list (string * pyval)).

(** Keyword arguments and JSON objects: string-keyed association lists. *)
Definition kwargs := list (string * pyval).

Fixpoint assoc {V : Type} (k : string) (d : list (string * V)) : option V :=
  match d with
  | [] => None
  | (k', v) :: d' => if decide (k = k') then Some v else assoc k d'
  end.

(** Exceptions.  The first group are the Python classes the two services
    and the example functions raise.  The second group is modelled from
    the spec: the error taxonomy of its section 7, which the graph library
    raises. *)
Inductive exn : Type :=
| KeyError (arg : string)
| ValueError (msg : string)
| RuntimeError (msg : string)
| TypeError (msg : string)
| ZeroDivisionError (msg : string)
| StructuralError (what : string) (source target target_input : string)
| CycleError (node : string)
| ExecutionError (node : string) (cause : exn)
| MissingArgumentError (param : string).

Inductive result (A : Type) : Type :=
| Ok (a : A)
| Raise (e : exn).
Arguments Ok {A} a.
Arguments Raise {A} e.

#[global] Instance result_ret : MRet result := fun A a => Ok a.
#[global] Instance result_bind : MBind result := fun A B f m =>
  match m with
  | Ok a => f a
  | Raise e => Raise e
  end.

(** [try: body except Exception as e: handler e] *)
Definition try_except {A : Type} (body : result A) (handler : exn -> result A)
  : result A :=
  match body with
  | Ok a => Ok a
  | Raise e => handler e
  end.

Definition is_ok {A : Type} (r : result A) : Prop := exists a, r = Ok a.

(** [for x in xs: s = body(s, x)], stopping at the first exception. *)
Fixpoint for_in {A S : Type} (body : S -> A -> result S) (xs : list A) (s : S)
  : result S :=
  match xs with
  | [] => Ok s
  | x :: xs' =>
      match body s x with
      | Ok s' => for_in body xs' s'
      | Raise e => Raise e
      end
  end.

(** *** [repr] and [str] *)

Definition hex_digit (n : N) : ascii :=
  ascii_of_N (if (n <? 10)%N then 48 + n else 87 + n).

Fixpoint contains_char (c : ascii) (s : string) : bool :=
  match s with
  | EmptyString => false
  | String c' s' => if decide (c = c') then true else contains_char c s'
  end.

Definition backslash : ascii := ascii_of_N 92.
Definition squote : ascii := ascii_of_N 39.
Definition dquote : ascii := ascii_of_N 34.

(** A [string] stands for a Python [str] whose characters are below
    U+0100, one [ascii] per character.  [str.isprintable] is false on the
    control characters U+0000 to U+001F and U+007F to U+009F, on the
    no-break space U+00A0 and on the soft hyphen U+00AD, and true on the
    other characters below U+0100. *)
Definition printable (n : N) : bool :=
  negb ((n <? 32) || ((127 <=? n) && (n <=? 160)) || (n =? 173))%N.

(** One character of [repr(s)] for the quote character [q]: the quote and
    the backslash are escaped, a character that is not printable is
    written [\t], [\n], [\r] or [\xNN]. *)
Definition repr_char (q c : ascii) : string :=
  let n := N_of_ascii c in
  if decide (c = q) then String backslash (String c EmptyString)
  else if decide (c = backslash) then String backslash (String c EmptyString)
  else if (n =? 9)%N then String backslash "t"
  else if (n =? 10)%N then String backslash "n"
  else if (n =? 13)%N then String backslash "r"
  else if negb (printable n) then
    String backslash (String "x" (String (hex_digit (n / 16))
                                   (String (hex_digit (n mod 16)) EmptyString)))
  else String c EmptyString.

Fixpoint repr_body (q : ascii) (s : string) : string :=
  match s with
  | EmptyString => EmptyString
  | String c s' => repr_char q c +:+ repr_body q s'
  end.

(** [repr] of a Python [str]: single quotes unless the string has a single
    quote and no double quote. *)
Definition py_repr (s : string) : string :=
  let q := if contains_char squote s && negb (contains_char dquote s)
           then dquote else squote in
  String q (repr_body q s +:+ String q EmptyString).

(** [str(e)].  A [KeyError] prints the [repr] of its argument; the other
    built-in exceptions print their message.  The renderings of the error
    kinds of the specification are modelled from the spec: each names the
    kind and its arguments (section 7, "carries the failing node id and
    the original error"). *)
Fixpoint exn_str (e : exn) : string :=
  match e with
  | KeyError arg => py_repr arg
  | ValueError msg => msg
  | RuntimeError msg => msg
  | TypeError msg => msg
  | ZeroDivisionError msg => msg
  | StructuralError what source target target_input =>
      what +:+ ": " +:+ source +:+ " -> " +:+ target +:+ "." +:+ target_input
  | CycleError node => "dependency cycle through node " +:+ node
  | ExecutionError node cause => "node " +:+ node +:+ " failed: " +:+ exn_str cause
  | MissingArgumentError param => "missing required argument " +:+ param
  end.

(** ** function_registry.py *)

Module Registry.

(** What [i2.Sig] and [inspect] expose of one parameter of a callable:
    [sp_annotation = None] is [inspect.Parameter.empty], [Some a] is the
    annotation's [__name__] (or its [str]); likewise for the default. *)
Record SigParam : Type := {
  sp_name : string;
  sp_annotation : option string;
  sp_default : option pyval;
  sp_kind : string
}.

(** A registered callable: its signature, what [inspect.getdoc] and
    [__module__] give, and its body applied to the values of its parameters
    in declaration order.  [sig_error] is the exception [i2.Sig] raises on
    the callable, for a callable whose signature cannot be introspected. *)
Record Callable : Type := {
  sig_params : list SigParam;
  sig_return_annotation : option string;
  fn_doc : option string;
  fn_module : option string;
  fn_body : list pyval -> result pyval;
  sig_error : option exn
}.

(** The attributes of an [i2.Sig] object that [_extract_metadata] reads:
    [names] is the list of the parameter names and [params] the list of
    the parameters, both in declaration order (the mapping from names to
    parameters is [Sig.parameters]). *)
Record Signature : Type := {
  Sig_names : list string;
  Sig_params : list SigParam;
  Sig_return_annotation : option string
}.

(** [Sig(func)] *)
Definition Sig (func : Callable) : result Signature :=
  match sig_error func with
  | Some e => Raise e
  | None =>
      Ok {| Sig_names := map sp_name (sig_params func);
            Sig_params := sig_params func;
            Sig_return_annotation := sig_return_annotation func |}
  end.

(** [l[k]] for a list [l] and a [str] [k]: a list takes integers and
    slices as subscripts, and raises on any other. *)
Definition list_getitem_str {A : Type} (l : list A) (k : string) : result A :=
  Raise (TypeError "list indices must be integers or slices, not str").

Record ParameterInfo : Type := {
  pi_name : string;
  pi_annotation : string;
  pi_default : option pyval;
  pi_has_default : bool;
  pi_kind : string
}.

Record FunctionMetadata : Type := {
  fm_name : string;
  fm_doc : option string;
  fm_parameters : list ParameterInfo;
  fm_return_annotation : string;
  fm_module : option string
}.

Record FunctionRegistry : Type := {
  _functions : gmap string Callable;
  _metadata : gmap string FunctionMetadata
}.

(** [FunctionRegistry.__init__] *)
Definition init : FunctionRegistry :=
  {| _functions := ∅; _metadata := ∅ |}.

(** The [ParameterInfo] built in the body of the loop of
    [_extract_metadata], from the name and the parameter found for it. *)
Definition _extract_parameter (param_name : string) (param : SigParam)
  : ParameterInfo :=
  let annotation := default "Any" (sp_annotation param) in
  let has_default := bool_decide (is_Some (sp_default param)) in
  {| pi_name := param_name;
     pi_annotation := annotation;
     pi_default := sp_default param;
     pi_has_default := has_default;
     pi_kind := sp_kind param |}.

(** [_extract_metadata]: the loop subscripts [sig.params], a list, with
    the name of each parameter. *)
Definition _extract_metadata (name : string) (func : Callable)
  : result FunctionMetadata :=
  sig ← Sig func;
  parameters ←
    for_in (fun parameters param_name =>
              param ← list_getitem_str (Sig_params sig) param_name;
              Ok (parameters ++ [_extract_parameter param_name param]))
           (Sig_names sig) [];
  let return_annotation := default "Any" (Sig_return_annotation sig) in
  Ok {| fm_name := name;
        fm_doc := fn_doc func;
        fm_parameters := parameters;
        fm_return_annotation := return_annotation;
        fm_module := fn_module func |}.

(** The methods below mutate [self]: they return the registry they leave
    behind together with their outcome.  [register] stores the function
    and then extracts the metadata: when the extraction raises, the
    function is stored and the metadata table is as it was. *)
Definition register (self : FunctionRegistry) (name : string) (func : Callable)
    (override : bool) : FunctionRegistry * result unit :=
  if bool_decide (is_Some (_functions self !! name)) && negb override then
    (self, Raise (ValueError ("Function '" +:+ name +:+
                   "' already registered. Use override=True to replace.")))
  else
    let functions' := <[name := func]> (_functions self) in
    match _extract_metadata name func with
    | Ok metadata =>
        ({| _functions := functions';
            _metadata := <[name := metadata]> (_metadata self) |}, Ok tt)
    | Raise e =>
        ({| _functions := functions'; _metadata := _metadata self |}, Raise e)
    end.

Definition get_function (self : FunctionRegistry) (name : string) : result Callable :=
  match _functions self !! name with
  | None => Raise (KeyError ("Function '" +:+ name +:+ "' not found in registry"))
  | Some f => Ok f
  end.

Definition get_metadata (self : FunctionRegistry) (name : string)
  : result FunctionMetadata :=
  match _metadata self !! name with
  | None => Raise (KeyError ("Function '" +:+ name +:+ "' not found in registry"))
  | Some m => Ok m
  end.

(** [del self._functions[name]; del self._metadata[name]]: the second
    [del] raises [KeyError(name)] when the key is missing, after the first
    has taken effect. *)
Definition unregister (self : FunctionRegistry) (name : string)
  : FunctionRegistry * result unit :=
  match _functions self !! name with
  | None => (self, Raise (KeyError ("Function '" +:+ name +:+ "' not found in registry")))
  | Some _ =>
      let functions' := delete name (_functions self) in
      match _metadata self !! name with
      | None => ({| _functions := functions'; _metadata := _metadata self |},
                 Raise (KeyError name))
      | Some _ => ({| _functions := functions';
                      _metadata := delete name (_metadata self) |}, Ok tt)
      end
  end.

(** A client of the registry: a sequence of [register] and [unregister]
    calls on a fresh registry, whatever their outcomes. *)
Inductive call : Type :=
| CallRegister (name : string) (func : Callable) (override : bool)
| CallUnregister (name : string).

Definition run_call (self : FunctionRegistry) (c : call) : FunctionRegistry :=
  match c with
  | CallRegister name func override => fst (register self name func override)
  | CallUnregister name => fst (unregister self name)
  end.

Definition run_calls (cs : list call) : FunctionRegistry :=
  fold_left run_call cs init.

(** The two tables have the same keys. *)
Definition consistent (self : FunctionRegistry) : Prop :=
  dom (_functions self) = dom (_metadata self).

End Registry.

(** ** Insertion-ordered dictionaries *)

(** [funcs] and [binds] are Python dicts handed to the graph library, which
    sees their insertion order: association lists in which [d[k] = v]
    replaces in place or appends. *)
Definition odict (V : Type) : Type := list (string * V).

Fixpoint od_set {V : Type} (d : odict V) (k : string) (v : V) : odict V :=
  match d with
  | [] => [(k, v)]
  | (k', v') :: d' =>
      if decide (k = k') then (k, v) :: d' else (k', v') :: od_set d' k v
  end.

Definition od_keys {V : Type} (d : odict V) : list string := map fst d.

(** ** dag_service.py *)

(** A node or edge entry of a description: a JSON object whose fields are
    strings. *)
Abbreviation entry := (gmap string string).

(** [d[k]] *)
Definition getitem (d : entry) (k : string) : result string :=
  match d !! k with
  | Some v => Ok v
  | None => Raise (KeyError k)
  end.

(** The description [dag_config]; a field is [None] when the key is absent. *)
Record dag_config : Type := {
  cfg_name : option string;
  cfg_nodes : option (list entry);
  cfg_edges : option (list entry);
  cfg_params : option pyval
}.

(** The dictionary [execute_from_config] returns. *)
Definition pydict : Type := list (string * pyval).

Section DAGService.
Import Registry.

(** [meshed.DAG]: its constructor, which receives [funcs] and the entries
    of [binds] as keyword arguments, and its [__call__], which receives
    the entries of [inputs] as keyword arguments. *)
Context {DAG : Type}.
Variable DAG_init : odict Callable -> odict (odict string) -> result DAG.
Variable DAG_call : DAG -> kwargs -> result pyval.

(** [self.function_registry] *)
Variable function_registry : FunctionRegistry.

(** Body of the loop over [nodes]. *)
Definition resolve_node (funcs : odict Callable) (node : entry)
  : result (odict Callable) :=
  node_id ← getitem node "id";
  func_name ← getitem node "function";
  match get_function function_registry func_name with
  | Ok func => Ok (od_set funcs node_id func)
  | Raise (KeyError _) =>
      Raise (ValueError ("Function '" +:+ func_name +:+
               "' not found in registry for node '" +:+ node_id +:+ "'"))
  | Raise e => Raise e
  end.

(** [edge.get("targetInput", edge.get("sourceOutput", "value"))] *)
Definition target_input_of (edge : entry) : string :=
  default (default "value" (edge !! "sourceOutput")) (edge !! "targetInput").

(** Body of the loop over [edges]. *)
Definition bind_edge (binds : odict (odict string)) (edge : entry)
  : result (odict (odict string)) :=
  source ← getitem edge "source";
  target ← getitem edge "target";
  let target_input := target_input_of edge in
  let binds1 :=
    match assoc target binds with
    | None => od_set binds target []
    | Some _ => binds
    end in
  Ok (od_set binds1 target (od_set (default [] (assoc target binds1))
                              target_input source)).

Definition json_to_dag (dag_config : dag_config) : result DAG :=
  let name := default "unnamed_dag" (cfg_name dag_config) in
  let nodes := default [] (cfg_nodes dag_config) in
  let edges := default [] (cfg_edges dag_config) in
  let params := default (PDict []) (cfg_params dag_config) in
  match nodes with
  | [] => Raise (ValueError "DAG must have at least one node")
  | _ =>
      funcs ← for_in resolve_node nodes [];
      binds ← for_in bind_edge edges [];
      try_except (DAG_init funcs binds)
        (fun e => Raise (ValueError ("Error creating DAG: " +:+ exn_str e)))
  end.

Definition execute_dag (dag : DAG) (inputs : kwargs) : result pyval :=
  try_except (DAG_call dag inputs)
    (fun e => Raise (RuntimeError ("DAG execution failed: " +:+ exn_str e))).

Definition execute_from_config (dag_config : dag_config) (inputs : kwargs)
  : result pydict :=
  try_except
    (dag ← json_to_dag dag_config;
     result ← execute_dag dag inputs;
     Ok [("status", PStr "success");
         ("result", result);
         ("dag_name", PStr (default "unnamed" (cfg_name dag_config)))])
    (fun e =>
       Ok [("status", PStr "error");
           ("error", PStr (exn_str e));
           ("dag_name", PStr (default "unnamed" (cfg_name dag_config)))]).

End DAGService.

(** ** The graph library

    [meshed.DAG] is a dependency of the repository; the specification
    describes the graph it builds and how it executes (sections 3, 4.1
    step 3, 4.2 and 7). *)

Module Meshed.
Import Registry.

(** Modelled from the spec: the Graph of section 3, which [meshed.DAG]
    objects are: the nodes with their resolved callables, in declaration
    order, and the internal ParamBindings, per target node a map from
    parameter name to source node. *)
Record Graph : Type := {
  g_funcs : odict Callable;
  g_binds : odict (odict string)
}.

(** Modelled from the spec: membership of a node id among the graph's nodes
    (section 3, "every edge's source and target node ids must exist among
    the graph's nodes"). *)
Definition known (funcs : odict Callable) (n : string) : bool :=
  bool_decide (is_Some (assoc n funcs)).

(** Modelled from the spec: the builder-time check of the bindings of one
    target node (section 4.1 step 3, "edge referencing an unknown
    source/target node id"). *)
Fixpoint check_sources (funcs : odict Callable) (target : string)
    (inner : odict string) : result unit :=
  match inner with
  | [] => Ok tt
  | (target_input, source) :: inner' =>
      if known funcs source && known funcs target
      then check_sources funcs target inner'
      else Raise (StructuralError "unknown node reference"
                    source target target_input)
  end.

(** Modelled from the spec: the same check over all target nodes. *)
Fixpoint check_binds (funcs : odict Callable) (binds : odict (odict string))
  : result unit :=
  match binds with
  | [] => Ok tt
  | (target, inner) :: binds' =>
      match check_sources funcs target inner with
      | Ok _ => check_binds funcs binds'
      | Raise e => Raise e
      end
  end.

(** Modelled from the spec: the constructor of [meshed.DAG] (section 4.1
    steps 3 and 4): it rejects a dangling reference and makes no cycle
    check. *)
Definition DAG_init (funcs : odict Callable) (binds : odict (odict string))
  : result Graph :=
  match check_binds funcs binds with
  | Ok _ => Ok {| g_funcs := funcs; g_binds := binds |}
  | Raise e => Raise e
  end.

(** Modelled from the spec: the source nodes a node depends on (section
    4.2, "edge direction: source -> target"). *)
Definition deps (g : Graph) (n : string) : list string :=
  match assoc n (g_binds g) with
  | Some inner => map snd inner
  | None => []
  end.

(** Modelled from the spec: a node may run once all its sources have
    (section 4.2, execution order). *)
Definition ready (g : Graph) (done : list string) (n : string) : bool :=
  forallb (fun s => bool_decide (s ∈ done)) (deps g n).

(** Modelled from the spec: the topological ordering of section 4.2; among
    the nodes that may run, the first in declaration order is taken.  The
    result is the order found and the nodes that could not be ordered. *)
Fixpoint kahn (g : Graph) (fuel : nat) (remaining done : list string)
  : list string * list string :=
  match fuel with
  | O => (reverse done, remaining)
  | S fuel' =>
      match find (ready g done) remaining with
      | None => (reverse done, remaining)
      | Some n =>
          kahn g fuel' (filter (fun m => m ≠ n) remaining) (n :: done)
      end
  end.

(** Modelled from the spec: [kahn] over the nodes of the graph. *)
Definition topological_order (g : Graph) : list string * list string :=
  kahn g (length (g_funcs g)) (od_keys (g_funcs g)) [].

(** Modelled from the spec: from an unordered node, an unordered source
    of it (the node itself when it has none). *)
Definition next_unordered (g : Graph) (leftover : list string) (n : string)
  : string :=
  default n (find (fun s => bool_decide (s ∈ leftover)) (deps g n)).

(** Modelled from the spec: a node on a cycle, to be named by the
    [CycleError] (section 4.2): from an unordered node, follow unordered
    sources for as many steps as there are unordered nodes. *)
Definition cycle_node (g : Graph) (leftover : list string) (n : string)
  : string :=
  Nat.iter (length leftover) (next_unordered g leftover) n.

(** Modelled from the spec: the value of parameter [p] of node [n], rules
    (a) to (c) of section 4.2; [None] when the parameter is left
    unsupplied. *)
Definition resolve_arg (g : Graph) (inputs : kwargs) (outputs : odict pyval)
    (n p : string) : option pyval :=
  match assoc n (g_binds g) ≫= assoc p with
  | Some source => assoc source outputs
  | None =>
      match assoc n inputs with
      | Some (PDict overrides) =>
          match assoc p overrides with
          | Some v => Some v
          | None => assoc p inputs
          end
      | _ => assoc p inputs
      end
  end.

(** Modelled from the spec: the arguments supplied to node [n], one per
    parameter that rules (a) to (c) resolve. *)
Definition supplied_args (g : Graph) (inputs : kwargs) (outputs : odict pyval)
    (n : string) (func : Callable) : kwargs :=
  omap (fun p => pair (sp_name p) <$> resolve_arg g inputs outputs n (sp_name p))
       (sig_params func).

(** Modelled from the spec: rule (d) of section 4.2: a parameter left
    unsupplied takes the callable's default, and the invocation fails when
    there is none. *)
Fixpoint bind_params (params : list SigParam) (args : kwargs)
  : result (list pyval) :=
  match params with
  | [] => Ok []
  | p :: params' =>
      match assoc (sp_name p) args, sp_default p with
      | Some v, _ | None, Some v =>
          match bind_params params' args with
          | Ok vs => Ok (v :: vs)
          | Raise e => Raise e
          end
      | None, None => Raise (MissingArgumentError (sp_name p))
      end
  end.

(** Modelled from the spec: the invocation of a callable with keyword
    arguments. *)
Definition invoke (func : Callable) (args : kwargs) : result pyval :=
  match bind_params (sig_params func) args with
  | Ok vs => fn_body func vs
  | Raise e => Raise e
  end.

(** One invocation issued by the executor: the node and the arguments
    supplied to its callable. *)
Definition invocation : Type := string * kwargs.

(** Modelled from the spec: the walk over the nodes in topological order
    (section 4.2, execution): each result is stored under the node id, the
    first failure is wrapped as an [ExecutionError] and ends the walk.  The
    invocations issued are recorded in order. *)
Fixpoint run_nodes (g : Graph) (inputs : kwargs) (order : list string)
    (outputs : odict pyval) (log : list invocation)
  : list invocation * result (odict pyval) :=
  match order with
  | [] => (log, Ok outputs)
  | n :: order' =>
      match assoc n (g_funcs g) with
      | None => run_nodes g inputs order' outputs log
      | Some func =>
          let args := supplied_args g inputs outputs n func in
          match invoke func args with
          | Ok v => run_nodes g inputs order' (od_set outputs n v)
                      (log ++ [(n, args)])%list
          | Raise e => ((log ++ [(n, args)])%list, Raise (ExecutionError n e))
          end
      end
  end.

(** Modelled from the spec: the sink nodes, those no binding names as its
    source (glossary). *)
Definition sinks (g : Graph) : list string :=
  filter (fun n => Forall (fun tb => n ∉ map snd (snd tb)) (g_binds g))
         (od_keys (g_funcs g)).

(** Modelled from the spec: the result shape of section 4.2: the value of
    the single sink, or else the mapping of all node outputs. *)
Definition extract_result (g : Graph) (outputs : odict pyval) : pyval :=
  match sinks g with
  | [s] => default (PDict outputs) (assoc s outputs)
  | _ => PDict outputs
  end.

(** Modelled from the spec: [execute] of section 4.2, with the invocations
    it issued: a cycle is reported before any node runs. *)
Definition run (g : Graph) (inputs : kwargs)
  : list invocation * result pyval :=
  match topological_order g with
  | (order, []) =>
      match run_nodes g inputs order [] [] with
      | (log, Ok outputs) => (log, Ok (extract_result g outputs))
      | (log, Raise e) => (log, Raise e)
      end
  | (_, n :: leftover) =>
      ([], Raise (CycleError (cycle_node g (n :: leftover) n)))
  end.

(** Modelled from the spec: [__call__] of [meshed.DAG], the outcome of
    [run]. *)
Definition DAG_call (g : Graph) (inputs : kwargs) : result pyval :=
  snd (run g inputs).

End Meshed.

(** ** utils/example_functions.py and the descriptions of the tests *)

Module Examples.
Import Registry.

(** [type(v).__name__] *)
Definition py_type_name (v : pyval) : string :=
  match v with
  | PNone => "NoneType"
  | PBool _ => "bool"
  | PInt _ => "int"
  | PStr _ => "str"
  | PList _ => "list"
  | PDict _ => "dict"
  end.

(** The integer an [int] or [bool] operand stands for. *)
Definition as_int (v : pyval) : option Z :=
  match v with
  | PInt z => Some z
  | PBool b => Some (if b then 1 else 0)%Z
  | _ => None
  end.

Definition unsupported (op : string) (x y : pyval) : exn :=
  TypeError ("unsupported operand type(s) for " +:+ op +:+ ": '" +:+
             py_type_name x +:+ "' and '" +:+ py_type_name y +:+ "'").

(** [x + y] *)
Definition py_add (x y : pyval) : result pyval :=
  match as_int x, as_int y with
  | Some a, Some b => Ok (PInt (a + b))
  | _, _ =>
      match x, y with
      | PStr s, PStr t => Ok (PStr (s +:+ t))
      | PStr _, _ =>
          Raise (TypeError ("can only concatenate str (not " +:+
                   String dquote (py_type_name y) +:+
                   String dquote ") to str"))
      | PList l, PList m => Ok (PList (l ++ m)%list)
      | PList _, _ =>
          Raise (TypeError ("can only concatenate list (not " +:+
                   String dquote (py_type_name y) +:+
                   String dquote ") to list"))
      | _, _ => Raise (unsupported "+" x y)
      end
  end.

(** [x - y] *)
Definition py_sub (x y : pyval) : result pyval :=
  match as_int x, as_int y with
  | Some a, Some b => Ok (PInt (a - b))
  | _, _ => Raise (unsupported "-" x y)
  end.

(** [seq * n] for a [str] or [list] *)
Definition py_repeat (sq : pyval) (n : Z) : pyval :=
  match sq with
  | PStr s => PStr (Nat.iter (Z.to_nat n) (String.append s) "")
  | PList l => PList (concat (replicate (Z.to_nat n) l))
  | _ => sq
  end.

Definition is_sequence (v : pyval) : bool :=
  match v with
  | PStr _ | PList _ => true
  | _ => false
  end.

Definition non_int_count (v : pyval) : exn :=
  TypeError ("can't multiply sequence by non-int of type '" +:+
             py_type_name v +:+ "'").

(** [x * y] *)
Definition py_mul (x y : pyval) : result pyval :=
  match as_int x, as_int y with
  | Some a, Some b => Ok (PInt (a * b))
  | _, _ =>
      if is_sequence x then
        match as_int y with
        | Some n => Ok (py_repeat x n)
        | None => Raise (non_int_count y)
        end
      else if is_sequence y then
        match as_int x with
        | Some n => Ok (py_repeat y n)
        | None => Raise (non_int_count x)
        end
      else Raise (unsupported "*" x y)
  end.

Definition positional (name annotation : string) : SigParam :=
  {| sp_name := name;
     sp_annotation := Some annotation;
     sp_default := None;
     sp_kind := "POSITIONAL_OR_KEYWORD" |}.

(** The body of a function of two parameters. *)
Definition binary (op : pyval -> pyval -> result pyval) (vs : list pyval)
  : result pyval :=
  match vs with
  | [x; y] => op x y
  | _ => Raise (TypeError "wrong number of arguments")
  end.

(** [def add(a: int, b: int) -> int: return a + b] *)
Definition add : Callable :=
  {| sig_params := [positional "a" "int"; positional "b" "int"];
     sig_return_annotation := Some "int";
     fn_doc := Some "Add two numbers.

Args:
    a: First number
    b: Second number

Returns:
    Sum of a and b";
     fn_module := Some "app_meshed.utils.example_functions";
     fn_body := binary py_add;
     sig_error := None |}.

(** [def multiply(a: float, b: float) -> float: return a * b] *)
Definition multiply : Callable :=
  {| sig_params := [positional "a" "float"; positional "b" "float"];
     sig_return_annotation := Some "float";
     fn_doc := Some "Multiply two numbers.

Args:
    a: First number
    b: Second number

Returns:
    Product of a and b";
     fn_module := Some "app_meshed.utils.example_functions";
     fn_body := binary py_mul;
     sig_error := None |}.

(** [def subtract(a: float, b: float) -> float: return a - b] *)
Definition subtract : Callable :=
  {| sig_params := [positional "a" "float"; positional "b" "float"];
     sig_return_annotation := Some "float";
     fn_doc := Some "Subtract b from a.

Args:
    a: First number
    b: Number to subtract

Returns:
    Difference (a - b)";
     fn_module := Some "app_meshed.utils.example_functions";
     fn_body := binary py_sub;
     sig_error := None |}.

(** The registry of the tests: [add], [multiply] and [subtract], registered
    in that order on a fresh registry.  Each call stores its function
    before it raises from the extraction of the metadata, so the registry
    holds the three functions, which is what [json_to_dag] reads. *)
Definition registry_with_functions : FunctionRegistry :=
  run_calls [CallRegister "add" add false;
             CallRegister "multiply" multiply false;
             CallRegister "subtract" subtract false].

(** A node entry [{"id": id, "function": function}]. *)
Definition node (id function : string) : entry :=
  <["id" := id]> (<["function" := function]> ∅).

(** An edge entry with the two mandatory fields. *)
Definition edge (source target : string) : entry :=
  <["source" := source]> (<["target" := target]> ∅).

(** The description of [test_simple_dag_execution], for any name. *)
Definition simple_add (name : string) : dag_config :=
  {| cfg_name := Some name;
     cfg_nodes := Some [node "add_node" "add"];
     cfg_edges := Some [];
     cfg_params := Some (PDict []) |}.

(** The description of [test_chained_dag_execution]. *)
Definition chained : dag_config :=
  {| cfg_name := Some "chained";
     cfg_nodes := Some [node "step1" "add"; node "step2" "multiply"];
     cfg_edges :=
       Some [<["sourceOutput" := "step1"]>
               (<["targetInput" := "a"]> (edge "step1" "step2"))];
     cfg_params := Some (PDict []) |}.

Definition chained_inputs : kwargs :=
  [("a", PInt 5); ("b", PInt 3); ("step2", PDict [("b", PInt 2)])].

(** Two nodes, each fed by the other. *)
Definition cyclic : dag_config :=
  {| cfg_name := Some "cyclic";
     cfg_nodes := Some [node "A" "add"; node "B" "add"];
     cfg_edges := Some [<["targetInput" := "a"]> (edge "B" "A");
                        <["targetInput" := "a"]> (edge "A" "B")];
     cfg_params := None |}.

(** An edge from [X], which is no node of the descriptions below, into
    parameter [a] of [B]. *)
Definition dangling_edge : entry :=
  <["targetInput" := "a"]> (edge "X" "B").


(** The same dangling edge, followed by an edge that binds the same
    parameter of the same target. *)
Definition dangling_overwritten : dag_config :=
  {| cfg_name := Some "dangling";
     cfg_nodes := Some [node "A" "add"; node "B" "add"];
     cfg_edges := Some [dangling_edge;
                        <["targetInput" := "a"]> (edge "A" "B")];
     cfg_params := None |}.

(** [dangling_overwritten] without its dangling edge. *)
Definition overwriting_only : dag_config :=
  {| cfg_name := Some "dangling";
     cfg_nodes := Some [node "A" "add"; node "B" "add"];
     cfg_edges := Some [<["targetInput" := "a"]> (edge "A" "B")];
     cfg_params := None |}.

(** [test_dag_validation_invalid_function] *)
Definition invalid_dag : dag_config :=
  {| cfg_name := Some "invalid_dag";
     cfg_nodes := Some [node "node1" "nonexistent"];
     cfg_edges := Some [];
     cfg_params := None |}.

(** Two node entries with unregistered functions. *)
Definition two_unknown : dag_config :=
  {| cfg_name := Some "two_unknown";
     cfg_nodes := Some [node "n1" "missing1"; node "n2" "missing2"];
     cfg_edges := Some [];
     cfg_params := None |}.

(** A node entry without its [id]. *)
Definition missing_id : dag_config :=
  {| cfg_name := None;
     cfg_nodes := Some [<["function" := "add"]> ∅];
     cfg_edges := None;
     cfg_params := None |}.

(** [def process(data: str, mode: int = 1) -> dict] of
    [test_get_metadata], whose body builds a dictionary of its two
    arguments. *)
Definition process : Callable :=
  {| sig_params :=
       [positional "data" "str";
        {| sp_name := "mode"; sp_annotation := Some "int";
           sp_default := Some (PInt 1);
           sp_kind := "POSITIONAL_OR_KEYWORD" |}];
     sig_return_annotation := Some "dict";
     fn_doc := Some "Process data with mode.";
     fn_module := Some "test_function_registry";
     fn_body := binary (λ data mode, Ok (PDict [("data", data); ("mode", mode)]));
     sig_error := None |}.

(** [test_dag_validation_empty_nodes] *)
Definition empty_dag : dag_config :=
  {| cfg_name := Some "empty_dag";
     cfg_nodes := Some [];
     cfg_edges := Some [];
     cfg_params := None |}.

(** Three edges into [sink]: with both optional fields, with
    [sourceOutput] only, with neither. *)
Definition fallback_edges : list entry :=
  [<["sourceOutput" := "out"]> (<["targetInput" := "x"]> (edge "n1" "sink"));
   <["sourceOutput" := "out"]> (edge "n2" "sink");
   edge "n3" "sink"].

Definition fallback_binds : odict (odict string) :=
  [("sink", [("x", "n1"); ("out", "n2"); ("value", "n3")])].

Definition cyclic_binds : odict (odict string) :=
  [("A", [("a", "B")]); ("B", [("a", "A")])].

(** The graph the chained description builds to. *)
Definition chained_graph : Meshed.Graph :=
  {| Meshed.g_funcs := [("step1", add); ("step2", multiply)];
     Meshed.g_binds := [("step2", [("a", "step1")])] |}.

(** The chained example of dag_service.py without its name, its
    [output_name] and [sourceOutput] fields and its params. *)
Definition chained_example_bare : dag_config :=
  {| cfg_name := None;
     cfg_nodes := Some [node "add_step" "add";
                        node "multiply_step" "multiply"];
     cfg_edges :=
       Some [<["targetInput" := "a"]> (edge "add_step" "multiply_step")];
     cfg_params := None |}.

(** The body of a function without parameters. *)
Definition nullary (v : pyval) (vs : list pyval) : result pyval :=
  match vs with
  | [] => Ok v
  | _ => Raise (TypeError "wrong number of arguments")
  end.

(** A function of the tests without parameters, annotations and
    docstring, which returns [v]. *)
Definition bare_function (v : pyval) : Callable :=
  {| sig_params := [];
     sig_return_annotation := None;
     fn_doc := None;
     fn_module := Some "test_function_registry";
     fn_body := nullary v;
     sig_error := None |}.

(** [def temp_func(): pass] of [test_unregister_function] *)
Definition temp_func : Callable := bare_function PNone.

(** [def func_v1(): return 1] and [def func_v2(): return 2] of
    [test_override_function] *)
Definition func_v1 : Callable := bare_function (PInt 1).
Definition func_v2 : Callable := bare_function (PInt 2).

(** A description with the three edges of [fallback_edges]. *)
Definition fallback : dag_config :=
  {| cfg_name := Some "fallback";
     cfg_nodes := Some [node "n1" "add"; node "n2" "add"; node "n3" "add";
                        node "sink" "add"];
     cfg_edges := Some fallback_edges;
     cfg_params := None |}.

(** A description in which the id [n] is used by two node entries. *)
Definition repeated_id : dag_config :=
  {| cfg_name := None;
     cfg_nodes := Some [node "n" "add"; node "n" "multiply"];
     cfg_edges := None;
     cfg_params := None |}.

End Examples.

(** ** The rest of function_registry.py *)

Section Serialization.
Import Registry.

(** Python's [repr] on the default value of a parameter. *)
Variable repr : pyval -> string.

(** [ParameterInfo.to_dict].  The attribute [default] of a parameter
    without a default is Python's [None]. *)
Definition ParameterInfo_to_dict (self : ParameterInfo) : pyval :=
  PDict [("name", PStr (pi_name self));
         ("annotation", PStr (pi_annotation self));
         ("default", if pi_has_default self
                     then PStr (repr (default PNone (pi_default self)))
                     else PNone);
         ("has_default", PBool (pi_has_default self));
         ("kind", PStr (pi_kind self))].

(** An [Optional[str]] as a value. *)
Definition optional_str (o : option string) : pyval :=
  match o with
  | Some s => PStr s
  | None => PNone
  end.

(** [FunctionMetadata.to_dict] *)
Definition FunctionMetadata_to_dict (self : FunctionMetadata) : pyval :=
  PDict [("name", PStr (fm_name self));
         ("doc", optional_str (fm_doc self));
         ("parameters", PList (map ParameterInfo_to_dict (fm_parameters self)));
         ("return_annotation", PStr (fm_return_annotation self));
         ("module", optional_str (fm_module self))].

(** [FunctionRegistry.get_all_metadata]: the dictionary from each name to
    the dictionary of its metadata. *)
Definition get_all_metadata (self : FunctionRegistry) : gmap string pyval :=
  FunctionMetadata_to_dict <$> _metadata self.

End Serialization.

(** ** function_registry.py, with the order of its dictionaries *)

(** [del d[k]] on a dictionary that holds [k]. *)
Definition od_del {V : Type} (d : odict V) (k : string) : odict V :=
  filter (fun kv => kv.1 ≠ k) d.

(** [list_functions] returns the keys of [_functions] in insertion order,
    which a finite map does not record.  [OrderedRegistry] is the registry
    of [Registry] with its two dictionaries in insertion order. *)
Module OrderedRegistry.

Record FunctionRegistry : Type := {
  _functions : odict Registry.Callable;
  _metadata : odict Registry.FunctionMetadata
}.

Definition init : FunctionRegistry :=
  {| _functions := []; _metadata := [] |}.

Definition register (self : FunctionRegistry) (name : string)
    (func : Registry.Callable) (override : bool)
  : FunctionRegistry * result unit :=
  if bool_decide (is_Some (assoc name (_functions self))) && negb override then
    (self, Raise (ValueError ("Function '" +:+ name +:+
                   "' already registered. Use override=True to replace.")))
  else
    let functions' := od_set (_functions self) name func in
    match Registry._extract_metadata name func with
    | Ok metadata =>
        ({| _functions := functions';
            _metadata := od_set (_metadata self) name metadata |}, Ok tt)
    | Raise e =>
        ({| _functions := functions'; _metadata := _metadata self |}, Raise e)
    end.

Definition get_function (self : FunctionRegistry) (name : string)
  : result Registry.Callable :=
  match assoc name (_functions self) with
  | None => Raise (KeyError ("Function '" +:+ name +:+ "' not found in registry"))
  | Some f => Ok f
  end.

Definition get_metadata (self : FunctionRegistry) (name : string)
  : result Registry.FunctionMetadata :=
  match assoc name (_metadata self) with
  | None => Raise (KeyError ("Function '" +:+ name +:+ "' not found in registry"))
  | Some m => Ok m
  end.

(** [list(self._functions.keys())] *)
Definition list_functions (self : FunctionRegistry) : list string :=
  od_keys (_functions self).

Definition unregister (self : FunctionRegistry) (name : string)
  : FunctionRegistry * result unit :=
  match assoc name (_functions self) with
  | None => (self, Raise (KeyError ("Function '" +:+ name +:+ "' not found in registry")))
  | Some _ =>
      let functions' := od_del (_functions self) name in
      match assoc name (_metadata self) with
      | None => ({| _functions := functions'; _metadata := _metadata self |},
                 Raise (KeyError name))
      | Some _ => ({| _functions := functions';
                      _metadata := od_del (_metadata self) name |}, Ok tt)
      end
  end.

(** [get_all_metadata], in the order of [_metadata]. *)
Definition get_all_metadata (repr : pyval -> string) (self : FunctionRegistry)
  : odict pyval :=
  map (fun km => (km.1, FunctionMetadata_to_dict repr km.2)) (_metadata self).

Definition run_call (self : FunctionRegistry) (c : Registry.call)
  : FunctionRegistry :=
  match c with
  | Registry.CallRegister name func override =>
      fst (register self name func override)
  | Registry.CallUnregister name => fst (unregister self name)
  end.

Definition run_calls (cs : list Registry.call) : FunctionRegistry :=
  fold_left run_call cs init.

(** The registry of [Registry] an ordered registry stands for. *)
Definition forget (self : FunctionRegistry) : Registry.FunctionRegistry :=
  {| Registry._functions := list_to_map (_functions self);
     Registry._metadata := list_to_map (_metadata self) |}.

End OrderedRegistry.

(** ** api/startup.py *)

(** [register_example_functions], for the list [EXAMPLE_FUNCTIONS] of
    utils/example_functions.py and the global registry: each pair is
    registered with [override=True]; an exception of [register] is logged
    and the loop goes on with the registry as [register] left it. *)
Definition register_example_functions
    (EXAMPLE_FUNCTIONS : list (string * Registry.Callable))
    (registry : Registry.FunctionRegistry) : Registry.FunctionRegistry :=
  fold_left
    (fun registry '(func_name, func) =>
       fst (Registry.register registry func_name func true))
    EXAMPLE_FUNCTIONS registry.

(** ** The rest of dag_service.py *)

(** [DAGService.dag_to_json]: the dictionary it returns, as the
    description its [name], [nodes] and [edges] keys make and the string
    under its [note] key. *)
Definition dag_to_json {DAG : Type} (dag : DAG) : dag_config * string :=
  ({| cfg_name := Some "exported_dag";
      cfg_nodes := Some [];
      cfg_edges := Some [];
      cfg_params := None |},
   "Full DAG serialization requires DAG introspection").

Definition create_simple_dag_example : dag_config :=
  {| cfg_name := Some "simple_add_dag";
     cfg_nodes :=
       Some [<["id" := "add_node"]>
               (<["function" := "add"]> (<["output_name" := "result"]> ∅))];
     cfg_edges := Some [];
     cfg_params := Some (PDict []) |}.

Definition create_chained_dag_example : dag_config :=
  {| cfg_name := Some "chained_operations";
     cfg_nodes :=
       Some [<["id" := "add_step"]>
               (<["function" := "add"]> (<["output_name" := "sum"]> ∅));
             <["id" := "multiply_step"]>
               (<["function" := "multiply"]>
                  (<["output_name" := "product"]> ∅))];
     cfg_edges :=
       Some [<["source" := "add_step"]>
               (<["target" := "multiply_step"]>
                  (<["sourceOutput" := "sum"]>
                     (<["targetInput" := "a"]> ∅)))];
     cfg_params := Some (PDict []) |}.

(** ** api/main.py: the endpoints over the two services *)

Module Api.
Import Registry.

(** What an endpoint answers: the value it returns, or the
    [HTTPException] it raises. *)
Inductive response : Type :=
| Json (body : pyval)
| HTTPException (status_code : Z) (detail : string).

Section Endpoints.

(** The graph library, the global [function_registry] the module's
    [dag_service] is built on, and Python's [repr]. *)
Context {DAG : Type}.
Variable DAG_init : odict Callable -> odict (odict string) -> result DAG.
Variable DAG_call : DAG -> kwargs -> result pyval.
Variable function_registry : FunctionRegistry.
Variable repr : pyval -> string.

(** [GET /functions/{function_name}/metadata] *)
Definition get_function_metadata (function_name : string) : response :=
  match get_metadata function_registry function_name with
  | Ok metadata => Json (FunctionMetadata_to_dict repr metadata)
  | Raise (KeyError arg) => HTTPException 404 (exn_str (KeyError arg))
  | Raise e =>
      HTTPException 500
        ("Error retrieving function metadata: " +:+ exn_str e)
  end.

(** [POST /dag/execute] *)
Definition execute_dag (dag_config : dag_config) (inputs : kwargs) : response :=
  match execute_from_config DAG_init DAG_call function_registry
          dag_config inputs with
  | Ok result => Json (PDict result)
  | Raise e => HTTPException 500 ("DAG execution error: " +:+ exn_str e)
  end.

(** [POST /dag/validate] *)
Definition validate_dag (dag_config : dag_config) : response :=
  match json_to_dag DAG_init function_registry dag_config with
  | Ok dag =>
      Json (PDict [("status", PStr "valid");
                   ("dag_name", PStr (default "unnamed" (cfg_name dag_config)));
                   ("message", PStr "DAG configuration is valid")])
  | Raise e =>
      Json (PDict [("status", PStr "invalid");
                   ("error", PStr (exn_str e));
                   ("dag_name", PStr (default "unnamed" (cfg_name dag_config)))])
  end.

End Endpoints.

End Api.

(** ** stores/root_store.py: the key transforms of the sub-stores *)

Module RootStore.

(** [s.endswith(suffix)] *)
Fixpoint endswith (suffix s : string) : bool :=
  if String.eqb s suffix then true
  else match s with
       | EmptyString => false
       | String _ s' => endswith suffix s'
       end.

(** [s.replace(old, new)] for a non-empty [old]: the occurrences of [old]
    are replaced from left to right, without overlap; [skip] counts the
    characters of an occurrence still to be passed over. *)
Fixpoint replace_from (old new : string) (skip : nat) (s : string) : string :=
  match s with
  | EmptyString => EmptyString
  | String c s' =>
      match skip with
      | S skip' => replace_from old new skip' s'
      | O =>
          if String.prefix old (String c s')
          then new +:+ replace_from old new (String.length old - 1) s'
          else String c (replace_from old new 0 s')
      end
  end.

Definition replace (old new s : string) : string := replace_from old new 0 s.

(** [lambda k: k if k.endswith(ext) else f"{k}{ext}"], with [ext] the
    extension of the sub-store: ['.pkl'] for [functions], ['.json'] for
    [meshes] and [configs]. *)
Definition key_of_id (ext k : string) : string :=
  if endswith ext k then k else k +:+ ext.

(** [lambda k: k.replace(ext, '')] *)
Definition id_of_key (ext k : string) : string := replace ext "" k.

(** [old in s] *)
Fixpoint contains (old s : string) : bool :=
  String.prefix old s
  || match s with
     | EmptyString => false
     | String _ s' => contains old s'
     end.

End RootStore.

(** ** Vocabulary of the properties *)

(** The fallback order of the specification for the target parameter of an
    edge (section 4.1 step 3): the [targetInput] field if present, else the
    [sourceOutput] field, else the literal ["value"]. *)
Definition spec_target_input (edge : entry) : string :=
  match edge !! "targetInput" with
  | Some target_input => target_input
  | None =>
      match edge !! "sourceOutput" with
      | Some source_output => source_output
      | None => "value"
      end
  end.

(** [binds] holds an internal binding of parameter [p] of node [target] to
    the output of node [source]. *)
Definition binding (binds : odict (odict string)) (target p source : string)
  : Prop :=
  ∃ inner, assoc target binds = Some inner ∧ assoc p inner = Some source.

(** A node entry that carries both mandatory fields. *)
Definition has_id_and_function (node : entry) : Prop :=
  is_Some (node !! "id") ∧ is_Some (node !! "function").

(** A node entry whose function the registry resolves. *)
Definition resolvable (r : Registry.FunctionRegistry) (node : entry) : Prop :=
  is_Some (node !! "id")
  ∧ ∃ func_name, node !! "function" = Some func_name
                 ∧ is_Some (Registry._functions r !! func_name).

(** A node entry whose function field names a function that is not in the
    registry. *)
Definition unresolvable (r : Registry.FunctionRegistry) (node : entry) : Prop :=
  ∃ func_name, node !! "function" = Some func_name
               ∧ Registry._functions r !! func_name = None.

(** An edge entry that carries both mandatory fields. *)
Definition has_source_and_target (edge : entry) : Prop :=
  is_Some (edge !! "source") ∧ is_Some (edge !! "target").

(** Node [target] takes one of its parameters from the output of node
    [source]. *)
Definition depends_on (binds : odict (odict string)) (target source : string)
  : Prop :=
  ∃ p, binding binds target p source.

(** The node entries and the edge entries [json_to_dag] reads from a
    description: an absent key reads as the empty list. *)
Definition nodes_of (d : dag_config) : list entry := default [] (cfg_nodes d).
Definition edges_of (d : dag_config) : list entry := default [] (cfg_edges d).

(** The ids of the node entries of a description. *)
Definition node_ids (nodes : list entry) : list string :=
  omap (λ node : entry, node !! "id") nodes.

(** The keys of a bindings table are distinct, and so are the keys of each
    of its inner tables. *)
Definition unique_keys (binds : odict (odict string)) : Prop :=
  NoDup (od_keys binds)
  ∧ ∀ target inner, (target, inner) ∈ binds → NoDup (od_keys inner).

(** A graph as the constructor accepts it: distinct keys in the bindings
    table, and no binding that references a node outside the graph. *)
Definition well_formed (g : Meshed.Graph) : Prop :=
  unique_keys (Meshed.g_binds g)
  ∧ ∀ t p s, binding (Meshed.g_binds g) t p s →
             s ∈ od_keys (Meshed.g_funcs g) ∧ t ∈ od_keys (Meshed.g_funcs g).

(** The metadata of a callable without parameters under [name]. *)
Definition metadata_of (name : string) (func : Registry.Callable)
  : Registry.FunctionMetadata :=
  {| Registry.fm_name := name;
     Registry.fm_doc := Registry.fn_doc func;
     Registry.fm_parameters := [];
     Registry.fm_return_annotation :=
       default "Any" (Registry.sig_return_annotation func);
     Registry.fm_module := Registry.fn_module func |}.

(** The history [cs] has a [register] call that was given [func] under
    [name]. *)
Definition registered_in (cs : list Registry.call) (name : string)
    (func : Registry.Callable) : Prop :=
  ∃ override, Registry.CallRegister name func override ∈ cs.

(** The registry holds no metadata without a function, and the metadata
    it holds under a name is that of a callable without parameters that a
    [register] call of the history [cs] was given under that name. *)
Definition tracked (cs : list Registry.call) (self : Registry.FunctionRegistry)
  : Prop :=
  ∀ name m, Registry._metadata self !! name = Some m →
    is_Some (Registry._functions self !! name)
    ∧ ∃ func, registered_in cs name func
              ∧ Registry.sig_params func = []
              ∧ m = metadata_of name func.

(** The pairs of a list of named functions on which the extraction of
    the metadata succeeds, with the metadata. *)
Definition extracted (fs : list (string * Registry.Callable))
  : list (string * Registry.FunctionMetadata) :=
  omap (λ nf : string * Registry.Callable,
          match Registry._extract_metadata nf.1 nf.2 with
          | Ok m => Some (nf.1, m)
          | Raise _ => None
          end) fs.

(** What [to_dict] makes of the metadata of a callable without
    parameters. *)
Definition described (name : string) (func : Registry.Callable) : pyval :=
  PDict [("name", PStr name);
         ("doc", optional_str (Registry.fn_doc func));
         ("parameters", PList []);
         ("return_annotation",
          PStr (default "Any" (Registry.sig_return_annotation func)));
         ("module", optional_str (Registry.fn_module func))].

(** A graph library that keeps the two tables it is given: the graph
    [json_to_dag] returns on it is what [json_to_dag] hands to the
    constructor. *)
Definition keep_tables (funcs : odict Registry.Callable)
    (binds : odict (odict string))
  : result (odict Registry.Callable * odict (odict string)) :=
  Ok (funcs, binds).

(** What [json_to_dag] makes of the outcome of the constructor. *)
Definition constructed {DAG : Type} (r : result DAG) : result DAG :=
  try_except r (λ e, Raise (ValueError ("Error creating DAG: " +:+ exn_str e))).

(** [x] is the last element of [l] that satisfies [P]. *)
Definition is_last {A : Type} (P : A -> Prop) (l : list A) (x : A) : Prop :=
  ∃ pre post, l = pre ++ x :: post ∧ P x ∧ ∀ y, y ∈ post → ¬ P y.

(** The edge binds parameter [p] of node [target]. *)
Definition binds_param (target p : string) (edge : entry) : Prop :=
  edge !! "target" = Some target ∧ spec_target_input edge = p.

(** Two node entries with the same [id] and [function] fields, present or
    absent. *)
Definition same_node (n1 n2 : entry) : Prop :=
  n1 !! "id" = n2 !! "id" ∧ n1 !! "function" = n2 !! "function".

(** Two edge entries with the same [source] and [target] fields, present
    or absent, and the same target parameter. *)
Definition same_edge (e1 e2 : entry) : Prop :=
  e1 !! "source" = e2 !! "source" ∧ e1 !! "target" = e2 !! "target"
  ∧ spec_target_input e1 = spec_target_input e2.

(** * Properties *)

(** ** The function registry *)

Section RegistryFacts.
Import Registry.

Lemma is_ok_Ok {A : Type} (a : A) : is_ok (Ok a).
Proof. by exists a. Qed.

Lemma not_is_ok_Raise {A : Type} (e : exn) : ¬ is_ok (@Raise A e).
Proof. by intros [a Ha]. Qed.

Lemma get_function_ok (self : FunctionRegistry) (name : string) :
  is_ok (get_function self name) ↔ name ∈ dom (_functions self).
Proof.
  rewrite elem_of_dom. unfold get_function.
  destruct (_functions self !! name) as [f|]; split.
  - by eauto.
  - intros _. apply is_ok_Ok.
  - by intros ?%not_is_ok_Raise.
  - by intros [? ?].
Qed.

Lemma get_metadata_ok (self : FunctionRegistry) (name : string) :
  is_ok (get_metadata self name) ↔ name ∈ dom (_metadata self).
Proof.
  rewrite elem_of_dom. unfold get_metadata.
  destruct (_metadata self !! name) as [m|]; split.
  - by eauto.
  - intros _. apply is_ok_Ok.
  - by intros ?%not_is_ok_Raise.
  - by intros [? ?].
Qed.

Lemma registry_eq (r1 r2 : FunctionRegistry) :
  _functions r1 = _functions r2 → _metadata r1 = _metadata r2 → r1 = r2.
Proof. destruct r1, r2; simpl. by intros -> ->. Qed.

(** The subscript of [sig.params] raises at the first parameter. *)
Lemma extract_metadata_params name func :
  sig_error func = None → sig_params func ≠ [] →
  _extract_metadata name func
  = Raise (TypeError "list indices must be integers or slices, not str").
Proof.
  intros Hsig Hne. unfold _extract_metadata, Sig. rewrite Hsig; simpl.
  by destruct (sig_params func).
Qed.

(** The extraction succeeds on the callables without parameters that
    [Sig] accepts, and on no other. *)
Lemma extract_metadata_Ok name func m :
  _extract_metadata name func = Ok m
  ↔ sig_error func = None ∧ sig_params func = [] ∧ m = metadata_of name func.
Proof.
  unfold _extract_metadata, Sig.
  destruct (sig_error func) as [e|]; simpl.
  - split; [done|]. by intros [? _].
  - destruct (sig_params func) as [|p ps]; simpl.
    + split; [by intros [= <-]|by intros (_ & _ & ->)].
    + split; [done|]. by intros (_ & ? & _).
Qed.

Lemma extract_metadata_Raise name func e :
  _extract_metadata name func = Raise e →
  sig_error func = Some e
  ∨ (sig_params func ≠ []
     ∧ e = TypeError "list indices must be integers or slices, not str").
Proof.
  unfold _extract_metadata, Sig.
  destruct (sig_error func) as [e'|]; simpl; [intros [= <-]; by left|].
  destruct (sig_params func) as [|p ps]; simpl; [done|].
  intros [= <-]. by right.
Qed.

(** [register] on a name it accepts. *)
Lemma register_accepted self name func override :
  bool_decide (is_Some (_functions self !! name)) && negb override = false →
  register self name func override
  = match _extract_metadata name func with
    | Ok metadata =>
        ({| _functions := <[name := func]> (_functions self);
            _metadata := <[name := metadata]> (_metadata self) |}, Ok tt)
    | Raise e =>
        ({| _functions := <[name := func]> (_functions self);
            _metadata := _metadata self |}, Raise e)
    end.
Proof. intros Hacc. unfold register. by rewrite Hacc. Qed.

Lemma register_rejected self name func override :
  bool_decide (is_Some (_functions self !! name)) && negb override = true →
  register self name func override
  = (self, Raise (ValueError ("Function '" +:+ name +:+
                    "' already registered. Use override=True to replace."))).
Proof. intros Hrej. unfold register. by rewrite Hrej. Qed.

Lemma run_calls_snoc cs c : run_calls (cs ++ [c]) = run_call (run_calls cs) c.
Proof. unfold run_calls. by rewrite fold_left_app. Qed.

Lemma tracked_snoc cs c self : tracked cs self → tracked (cs ++ [c]) self.
Proof.
  intros Hself name m Hm.
  destruct (Hself name m Hm) as (Hf & func & [override Hin] & Hrest).
  split; [done|]. exists func. split; [|done].
  exists override. apply elem_of_app. by left.
Qed.

Lemma run_call_tracked cs self c :
  tracked cs self → tracked (cs ++ [c]) (run_call self c).
Proof.
  intros Hold%(tracked_snoc cs c).
  destruct c as [name func override|name]; simpl.
  - unfold register.
    destruct (bool_decide _ && negb override); simpl; [done|].
    destruct (_extract_metadata name func) as [metadata|e] eqn:Hex; simpl.
    + intros other m; simpl. destruct (decide (name = other)) as [<-|Hne].
      * rewrite !lookup_insert_eq. intros [= <-]. split; [by eexists|].
        apply extract_metadata_Ok in Hex as (_ & Hp & ->).
        exists func. split; [|done]. exists override.
        apply elem_of_app. right. apply list_elem_of_here.
      * rewrite !lookup_insert_ne by done. apply Hold.
    + intros other m; simpl. intros Hm.
      destruct (Hold other m Hm) as [Hf Hrest]. split; [|done].
      destruct (decide (name = other)) as [<-|Hne].
      * rewrite lookup_insert_eq. by eexists.
      * by rewrite lookup_insert_ne.
  - unfold unregister.
    destruct (_functions self !! name) as [f|] eqn:Hf; simpl; [|done].
    destruct (_metadata self !! name) as [m|] eqn:Hm; simpl.
    + intros other m'; simpl. destruct (decide (name = other)) as [<-|Hne].
      * by rewrite lookup_delete_eq.
      * rewrite !lookup_delete_ne by done. apply Hold.
    + intros other m'; simpl. intros Hm'.
      destruct (decide (name = other)) as [<-|Hne]; [congruence|].
      rewrite lookup_delete_ne by done. by apply Hold.
Qed.

(** The metadata table of a registry obtained from a fresh one holds
    nothing but what the [register] calls extracted, under names that
    have a function. *)
Lemma run_calls_tracked cs : tracked cs (run_calls cs).
Proof.
  induction cs as [|c cs IH] using rev_ind.
  - intros name m. unfold run_calls, init; simpl. by rewrite lookup_empty.
  - rewrite run_calls_snoc. by apply run_call_tracked.
Qed.

Lemma run_calls_no_function cs name :
  _functions (run_calls cs) !! name = None →
  _metadata (run_calls cs) !! name = None.
Proof.
  intros Hf. destruct (_metadata (run_calls cs) !! name) as [m|] eqn:Hm; [|done].
  destruct (run_calls_tracked cs name m Hm) as [[f Hsome] _]. congruence.
Qed.

Lemma not_registered self name :
  ¬ is_ok (get_function self name) → _functions self !! name = None.
Proof. intros Hnew. apply not_elem_of_dom. by rewrite <- get_function_ok. Qed.

(** C10.  The two tables do not keep the same names.  [register] stores
    the function and then extracts its metadata, and the extraction
    subscripts the list [sig.params] with the name of the first
    parameter: on a registry obtained from a fresh one by [register] and
    [unregister] calls, registering a callable with at least one
    parameter under a name that is not registered raises the [TypeError]
    of that subscript and leaves the name with a function and without
    metadata, so [get_function] succeeds on it where [get_metadata]
    raises; [unregister] then removes the function and raises the
    [KeyError] of its second [del]. *)
Theorem register_stores_function_without_metadata (cs : list call)
    (name : string) (func : Callable) (override : bool) :
  ¬ is_ok (get_function (run_calls cs) name) →
  sig_error func = None →
  sig_params func ≠ [] →
  snd (register (run_calls cs) name func override)
  = Raise (TypeError "list indices must be integers or slices, not str")
  ∧ get_function (fst (register (run_calls cs) name func override)) name
    = Ok func
  ∧ get_metadata (fst (register (run_calls cs) name func override)) name
    = Raise (KeyError ("Function '" +:+ name +:+ "' not found in registry"))
  ∧ ¬ consistent (fst (register (run_calls cs) name func override))
  ∧ unregister (fst (register (run_calls cs) name func override)) name
    = (run_calls cs, Raise (KeyError name)).
Proof.
  intros Hf%not_registered Hsig Hparams.
  pose proof (run_calls_no_function cs name Hf) as Hm.
  rewrite register_accepted
    by (rewrite Hf; apply andb_false_iff; left;
        apply bool_decide_eq_false_2; by intros [? ?]).
  rewrite (extract_metadata_params name func Hsig Hparams); simpl.
  split; [done|]. split; [|split; [|split]].
  - unfold get_function; simpl. by rewrite lookup_insert_eq.
  - unfold get_metadata; simpl. by rewrite Hm.
  - unfold consistent; simpl. intros Hdom.
    assert (name ∈ dom (_metadata (run_calls cs))) as Hin.
    { rewrite <- Hdom. apply elem_of_dom. rewrite lookup_insert_eq. by eexists. }
    apply elem_of_dom in Hin as [m Hin]. congruence.
  - unfold unregister; simpl. rewrite lookup_insert_eq, Hm. f_equal.
    apply registry_eq; simpl; [|done]. by apply delete_insert_id.
Qed.

End RegistryFacts.

(** ** Ordered dictionaries *)

Section OdictFacts.
Context {V : Type}.
Implicit Types (d : odict V) (k : string) (v : V).

Lemma assoc_od_set_eq d k v : assoc k (od_set d k v) = Some v.
Proof.
  induction d as [|[k' v'] d IH]; simpl.
  - by rewrite decide_True.
  - destruct (decide (k = k')) as [->|Hne]; simpl.
    + by rewrite decide_True.
    + by rewrite decide_False.
Qed.

Lemma assoc_od_set_ne d k k' v : k ≠ k' → assoc k' (od_set d k v) = assoc k' d.
Proof.
  intros Hne. induction d as [|[k1 v1] d IH]; simpl.
  - by rewrite decide_False.
  - destruct (decide (k = k1)) as [->|Hne1]; simpl.
    + by rewrite !decide_False.
    + destruct (decide (k' = k1)); [done|apply IH].
Qed.

Lemma assoc_od_set d k k' v :
  assoc k' (od_set d k v) = if decide (k = k') then Some v else assoc k' d.
Proof.
  destruct (decide (k = k')) as [->|Hne].
  - apply assoc_od_set_eq.
  - by apply assoc_od_set_ne.
Qed.

Lemma assoc_Some_elem_of d k v : assoc k d = Some v → (k, v) ∈ d.
Proof.
  induction d as [|[k' v'] d IH]; simpl; [done|].
  destruct (decide (k = k')) as [->|Hne].
  - intros [= ->]. apply list_elem_of_here.
  - intros H. apply list_elem_of_further. by apply IH.
Qed.

Lemma assoc_is_Some d k : is_Some (assoc k d) ↔ k ∈ od_keys d.
Proof.
  unfold od_keys. induction d as [|[k' v'] d IH]; simpl.
  - split; [by intros [? ?]|by intros ?%elem_of_nil].
  - destruct (decide (k = k')) as [->|Hne].
    + split; [intros _; apply list_elem_of_here|by eauto].
    + rewrite IH. split.
      * intros H. by apply list_elem_of_further.
      * intros [?|?]%elem_of_cons; [done|done].
Qed.

Lemma od_keys_od_set d k v :
  od_keys (od_set d k v)
  = if bool_decide (k ∈ od_keys d) then od_keys d else (od_keys d ++ [k])%list.
Proof.
  unfold od_keys. induction d as [|[k' v'] d IH]; simpl.
  - done.
  - destruct (decide (k = k')) as [->|Hne]; simpl.
    + by rewrite bool_decide_eq_true_2 by apply list_elem_of_here.
    + rewrite IH. case_bool_decide as Hin.
      * by rewrite bool_decide_eq_true_2 by by apply list_elem_of_further.
      * rewrite bool_decide_eq_false_2; [done|].
        by intros [?|?]%elem_of_cons.
Qed.

Lemma NoDup_od_keys_od_set d k v :
  NoDup (od_keys d) → NoDup (od_keys (od_set d k v)).
Proof.
  intros Hd. rewrite od_keys_od_set. case_bool_decide as Hin; [done|].
  apply NoDup_app. split; [done|]. split.
  - intros x Hx ->%list_elem_of_singleton. done.
  - apply NoDup_singleton.
Qed.

Lemma elem_of_od_set d k v k' v' :
  (k', v') ∈ od_set d k v → (k' = k ∧ v' = v) ∨ (k', v') ∈ d.
Proof.
  induction d as [|[k1 v1] d IH]; simpl.
  - intros [= -> ->]%list_elem_of_singleton. by left.
  - destruct (decide (k = k1)) as [->|Hne].
    + intros [[= -> ->]|Hin]%elem_of_cons; [by left|].
      right. by apply list_elem_of_further.
    + intros [[= -> ->]|Hin]%elem_of_cons.
      * right. apply list_elem_of_here.
      * destruct (IH Hin) as [?|?]; [by left|].
        right. by apply list_elem_of_further.
Qed.

Lemma elem_of_assoc d k v : NoDup (od_keys d) → (k, v) ∈ d → assoc k d = Some v.
Proof.
  unfold od_keys. induction d as [|[k1 v1] d IH]; simpl.
  - by intros _ ?%elem_of_nil.
  - intros [Hk1 Hd]%NoDup_cons [[= -> ->]|Hin]%elem_of_cons.
    + by rewrite decide_True.
    + rewrite decide_False; [by apply IH|].
      intros ->. apply Hk1. apply list_elem_of_fmap. by exists (k1, v).
Qed.

End OdictFacts.

(** ** The DAG service, for any graph library *)

Section DAGServiceFacts.
Import Registry.
Context {DAG : Type}.
Variable DAG_init : odict Callable → odict (odict string) → result DAG.
Variable DAG_call : DAG → kwargs → result pyval.
Variable function_registry : FunctionRegistry.

Local Abbreviation build := (json_to_dag DAG_init function_registry).
Local Abbreviation run_config :=
  (execute_from_config DAG_init DAG_call function_registry).

(** C7.  A description whose node sequence is empty is rejected with the
    error "DAG must have at least one node", whatever its name, edges
    and params, and no graph is returned. *)
Theorem json_to_dag_empty_nodes (d : dag_config) :
  cfg_nodes d = Some [] →
  build d = Raise (ValueError "DAG must have at least one node")
  ∧ ∀ dag, build d ≠ Ok dag.
Proof.
  intros Hnodes. unfold json_to_dag. rewrite Hnodes; simpl.
  split; [reflexivity|]. intros dag. discriminate.
Qed.

(** The same holds when the description has no [nodes] key at all. *)
Lemma json_to_dag_no_nodes (d : dag_config) :
  cfg_nodes d = None →
  build d = Raise (ValueError "DAG must have at least one node").
Proof.
  intros Hnodes. unfold json_to_dag. by rewrite Hnodes.
Qed.

(** C8.  Two descriptions that differ only in their params field build
    to the same outcome: the same graph, or the same error. *)
Theorem json_to_dag_ignores_params
    (name : option string) (nodes edges : option (list entry))
    (params1 params2 : option pyval) :
  build {| cfg_name := name; cfg_nodes := nodes;
                 cfg_edges := edges; cfg_params := params1 |}
  = build {| cfg_name := name; cfg_nodes := nodes;
                   cfg_edges := edges; cfg_params := params2 |}.
Proof. reflexivity. Qed.

(** C9.  [execute_from_config] raises nothing: on every description and
    every input mapping it returns a dictionary whose [dag_name] is the
    description's name, or "unnamed" when there is none, and whose
    [status] is "success", with a [result], or "error", with an [error]
    message. *)
Theorem execute_from_config_never_raises (d : dag_config) (inputs : kwargs) :
  ∃ out : pydict,
    run_config d inputs = Ok out
    ∧ assoc "dag_name" out = Some (PStr (default "unnamed" (cfg_name d)))
    ∧ ((assoc "status" out = Some (PStr "success")
        ∧ is_Some (assoc "result" out))
       ∨ (assoc "status" out = Some (PStr "error")
          ∧ ∃ msg, assoc "error" out = Some (PStr msg))).
Proof.
  unfold execute_from_config.
  destruct (build d) as [dag|e]; simpl.
  - destruct (execute_dag DAG_call dag inputs) as [v|e]; simpl.
    + eexists. split; [reflexivity|]. split; [reflexivity|].
      left. split; [reflexivity|]. by eexists.
    + eexists. split; [reflexivity|]. split; [reflexivity|].
      right. split; [reflexivity|]. by eexists.
  - eexists. split; [reflexivity|]. split; [reflexivity|].
    right. split; [reflexivity|]. by eexists.
Qed.

(** *** The loop over the nodes *)

Lemma resolve_node_resolvable funcs node :
  resolvable function_registry node →
  ∃ funcs', resolve_node function_registry funcs node = Ok funcs'.
Proof.
  intros [[node_id Hid] (func_name & Hfn & [func Hfunc])].
  unfold resolve_node, getitem, get_function.
  rewrite Hid, Hfn; simpl. rewrite Hfunc. by eexists.
Qed.

Lemma for_in_resolvable nodes : ∀ funcs,
  Forall (resolvable function_registry) nodes →
  ∃ funcs', for_in (resolve_node function_registry) nodes funcs = Ok funcs'.
Proof.
  induction nodes as [|node nodes IH]; intros funcs Hall; simpl.
  - by eexists.
  - apply Forall_cons in Hall as [Hnode Hall].
    destruct (resolve_node_resolvable funcs node Hnode) as [funcs' ->].
    by apply IH.
Qed.

Lemma for_in_app {A S : Type} (body : S → A → result S) xs ys s :
  for_in body (xs ++ ys) s
  = match for_in body xs s with
    | Ok s' => for_in body ys s'
    | Raise e => Raise e
    end.
Proof.
  revert s. induction xs as [|x xs IH]; intros s; simpl; [done|].
  destruct (body s x); [apply IH|done].
Qed.

Lemma resolve_node_unresolvable funcs node node_id func_name :
  node !! "id" = Some node_id →
  node !! "function" = Some func_name →
  _functions function_registry !! func_name = None →
  resolve_node function_registry funcs node
  = Raise (ValueError ("Function '" +:+ func_name +:+
             "' not found in registry for node '" +:+ node_id +:+ "'")).
Proof.
  intros Hid Hfn Hnone. unfold resolve_node, getitem, get_function.
  rewrite Hid, Hfn; simpl. by rewrite Hnone.
Qed.

(** A sequence of well-formed node entries with an unresolvable one
    splits at the first such entry. *)
Lemma first_unresolvable nodes :
  Forall has_id_and_function nodes →
  Exists (unresolvable function_registry) nodes →
  ∃ pre node post,
    nodes = pre ++ node :: post
    ∧ Forall (resolvable function_registry) pre
    ∧ unresolvable function_registry node.
Proof.
  induction nodes as [|n nodes IH]; intros Hwf Hex.
  - by apply Exists_nil in Hex.
  - apply Forall_cons in Hwf as [[Hid [fname Hfn]] Hwf].
    destruct (_functions function_registry !! fname) as [f|] eqn:Hf.
    + apply Exists_cons in Hex as [(fname' & Hfn' & Hnone)|Hex]; [congruence|].
      destruct (IH Hwf Hex) as (pre & node & post & -> & Hpre & Hbad).
      exists (n :: pre), node, post. split; [done|]. split; [|done].
      apply Forall_cons. split; [|done].
      split; [done|]. exists fname. by rewrite Hf.
    + exists [], n, nodes. split; [done|]. split; [by apply Forall_nil|].
      by exists fname.
Qed.

(** C6.  When the node entries carry their id and function and one of
    them names a function that is not in the registry, [json_to_dag]
    fails with the error "Function '<function>' not found in registry
    for node '<id>'", where <id> and <function> are those of the first
    such entry: every entry before it resolves. *)
Theorem json_to_dag_unknown_function (d : dag_config) (nodes : list entry) :
  cfg_nodes d = Some nodes →
  Forall has_id_and_function nodes →
  Exists (unresolvable function_registry) nodes →
  ∃ pre node post node_id func_name,
    nodes = pre ++ node :: post
    ∧ Forall (resolvable function_registry) pre
    ∧ node !! "id" = Some node_id
    ∧ node !! "function" = Some func_name
    ∧ _functions function_registry !! func_name = None
    ∧ build d
      = Raise (ValueError ("Function '" +:+ func_name +:+
                 "' not found in registry for node '" +:+ node_id +:+ "'")).
Proof.
  intros Hnodes Hwf Hex.
  destruct (first_unresolvable nodes Hwf Hex)
    as (pre & node & post & -> & Hpre & (func_name & Hfn & Hnone)).
  apply Forall_app in Hwf as [_ Hwf].
  apply Forall_cons in Hwf as [[[node_id Hid] _] _].
  exists pre, node, post, node_id, func_name.
  repeat (split; [done|]).
  unfold json_to_dag. rewrite Hnodes; simpl.
  destruct (for_in_resolvable pre [] Hpre) as [funcs Hfuncs].
  assert (for_in (resolve_node function_registry) (pre ++ node :: post) []
          = Raise (ValueError ("Function '" +:+ func_name +:+
              "' not found in registry for node '" +:+ node_id +:+ "'")))
    as Hloop.
  { rewrite for_in_app, Hfuncs; simpl.
    by rewrite (resolve_node_unresolvable funcs node node_id func_name). }
  rewrite Hloop. by destruct pre.
Qed.

(** Past the check on [nodes], the outcome of [json_to_dag] is that of
    the two loops and of the constructor. *)
Lemma json_to_dag_loops (d : dag_config) nodes funcs binds :
  cfg_nodes d = Some nodes → nodes ≠ [] →
  for_in (resolve_node function_registry) nodes [] = Ok funcs →
  for_in bind_edge (default [] (cfg_edges d)) [] = Ok binds →
  build d
  = try_except (DAG_init funcs binds)
      (λ e, Raise (ValueError ("Error creating DAG: " +:+ exn_str e))).
Proof.
  intros Hnodes Hne Hfuncs Hbinds. unfold json_to_dag.
  rewrite Hnodes; simpl. destruct nodes as [|node nodes]; [done|].
  by rewrite Hfuncs, Hbinds.
Qed.

(** The edges reach the constructor only through the table the loop
    over them builds. *)
Lemma json_to_dag_same_binds (d1 d2 : dag_config) :
  cfg_nodes d1 = cfg_nodes d2 →
  for_in bind_edge (default [] (cfg_edges d1)) []
  = for_in bind_edge (default [] (cfg_edges d2)) [] →
  build d1 = build d2.
Proof.
  intros Hnodes Hbinds. unfold json_to_dag. by rewrite Hnodes, Hbinds.
Qed.

(** An edge that a later edge overwrites leaves no trace in what the
    constructor receives: the description with the overwritten dangling
    edge builds to the same outcome as the one without it. *)
Lemma overwritten_edge_unseen :
  build Examples.dangling_overwritten = build Examples.overwriting_only.
Proof.
  apply json_to_dag_same_binds; [reflexivity|]. vm_compute. reflexivity.
Qed.

End DAGServiceFacts.

(** ** The loop over the edges *)

Section BindingFacts.

(** The default chain of [dict.get] calls is the fallback order of the
    specification. *)
Lemma target_input_of_spec (edge : entry) :
  target_input_of edge = spec_target_input edge.
Proof.
  unfold target_input_of, spec_target_input.
  destruct (edge !! "targetInput"); [done|].
  by destruct (edge !! "sourceOutput").
Qed.

(** The bindings table after one edge. *)
Lemma bind_edge_assoc binds edge binds' :
  bind_edge binds edge = Ok binds' →
  ∃ source target,
    edge !! "source" = Some source
    ∧ edge !! "target" = Some target
    ∧ ∀ t, assoc t binds'
           = if decide (target = t)
             then Some (od_set (default [] (assoc target binds))
                          (spec_target_input edge) source)
             else assoc t binds.
Proof.
  unfold bind_edge, getitem. rewrite target_input_of_spec.
  destruct (edge !! "source") as [source|]; simpl; [|done].
  destruct (edge !! "target") as [target|]; simpl; [|done].
  intros [= <-]. exists source, target. do 2 (split; [done|]).
  intros t. rewrite assoc_od_set.
  destruct (decide (target = t)) as [<-|Hne].
  - destruct (assoc target binds) as [inner|] eqn:Hinner; simpl.
    + by rewrite Hinner.
    + by rewrite assoc_od_set_eq.
  - destruct (assoc target binds) as [inner|] eqn:Hinner; simpl; [done|].
    by apply assoc_od_set_ne.
Qed.

Lemma bind_edge_binding binds edge binds' :
  bind_edge binds edge = Ok binds' →
  ∃ source target,
    edge !! "source" = Some source
    ∧ edge !! "target" = Some target
    ∧ ∀ t p s,
        binding binds' t p s
        ↔ (t = target ∧ p = spec_target_input edge ∧ s = source)
          ∨ (¬ (t = target ∧ p = spec_target_input edge)
             ∧ binding binds t p s).
Proof.
  intros (source & target & Hs & Ht & Hassoc)%bind_edge_assoc.
  exists source, target. do 2 (split; [done|]).
  intros t p s. unfold binding. setoid_rewrite Hassoc.
  destruct (decide (target = t)) as [<-|Hne].
  - split.
    + intros (inner & [= <-] & Hp). rewrite assoc_od_set in Hp.
      destruct (decide (spec_target_input edge = p)) as [<-|Hnp].
      * left. by injection Hp as <-.
      * right. split; [by intros [_ ->]|].
        destruct (assoc target binds) as [inner|]; simpl in Hp; [|done].
        by exists inner.
    + intros [(_ & -> & ->)|[Hnot (inner & Hinner & Hp)]].
      * eexists. split; [done|]. apply assoc_od_set_eq.
      * eexists. split; [done|]. rewrite Hinner; simpl.
        rewrite assoc_od_set_ne; [done|]. intros <-. by apply Hnot.
  - split.
    + intros Hb. right. split; [|done]. by intros [-> _].
    + intros [(-> & _)|[_ Hb]]; done.
Qed.

Lemma for_in_bind_edge_bindings edges : ∀ binds0 binds,
  for_in bind_edge edges binds0 = Ok binds →
  (∀ t p s, binding binds0 t p s → ∃ s', binding binds t p s')
  ∧ (∀ e, e ∈ edges →
       ∃ target source,
         e !! "target" = Some target
         ∧ binding binds target (spec_target_input e) source)
  ∧ (∀ t p s, binding binds t p s →
       binding binds0 t p s
       ∨ ∃ e, e ∈ edges ∧ e !! "source" = Some s ∧ e !! "target" = Some t
              ∧ spec_target_input e = p).
Proof.
  induction edges as [|edge edges IH]; intros binds0 binds; simpl.
  - intros [= <-]. split; [by eauto|]. split; [|by eauto].
    by intros e ?%elem_of_nil.
  - destruct (bind_edge binds0 edge) as [binds1|] eqn:Hedge; [|done].
    intros (Hkeep & Hall & Hfrom)%IH.
    apply bind_edge_binding in Hedge
      as (source & target & Hs & Ht & Hstep).
    split; [|split].
    + intros t p s Hb.
      destruct (decide (t = target ∧ p = spec_target_input edge))
        as [[-> ->]|Hnot].
      * apply (Hkeep target (spec_target_input edge) source).
        apply Hstep. by left.
      * apply (Hkeep t p s). apply Hstep. by right.
    + intros e [->|He]%elem_of_cons; [|by apply Hall].
      exists target.
      destruct (Hkeep target (spec_target_input edge) source) as [s' Hs'].
      { apply Hstep. by left. }
      by exists s'.
    + intros t p s [Hb|(e & He & Hfields)]%Hfrom.
      * apply Hstep in Hb as [(-> & -> & ->)|[_ Hb]]; [|by left].
        right. exists edge. split; [apply list_elem_of_here|done].
      * right. exists e. split; [by apply list_elem_of_further|done].
Qed.

Lemma for_in_bind_edge_total edges : ∀ binds0,
  Forall has_source_and_target edges →
  ∃ binds, for_in bind_edge edges binds0 = Ok binds.
Proof.
  induction edges as [|edge edges IH]; intros binds0 Hwf; simpl.
  - by eexists.
  - apply Forall_cons in Hwf as [[[source Hs] [target Ht]] Hwf].
    unfold bind_edge at 1, getitem. rewrite Hs, Ht; simpl. by apply IH.
Qed.

End BindingFacts.

(** ** What [json_to_dag] hands to the graph library *)

Section BuildFacts.
Import Registry.
Context {DAG : Type}.
Variable DAG_init : odict Callable → odict (odict string) → result DAG.
Variable function_registry : FunctionRegistry.

Local Abbreviation build := (json_to_dag DAG_init function_registry).

(** On a description whose nodes resolve and whose edges carry their
    source and target, the two loops complete and [json_to_dag] is the
    constructor on the tables they built. *)
Lemma json_to_dag_tables (d : dag_config) :
  nodes_of d ≠ [] →
  Forall (resolvable function_registry) (nodes_of d) →
  Forall has_source_and_target (edges_of d) →
  ∃ funcs binds,
    for_in (resolve_node function_registry) (nodes_of d) [] = Ok funcs
    ∧ for_in bind_edge (edges_of d) [] = Ok binds
    ∧ build d = constructed (DAG_init funcs binds).
Proof.
  intros Hne Hres Hwf.
  destruct (for_in_resolvable function_registry (nodes_of d) [] Hres)
    as [funcs Hfuncs].
  destruct (for_in_bind_edge_total (edges_of d) [] Hwf) as [binds Hbinds].
  exists funcs, binds. do 2 (split; [done|]).
  unfold json_to_dag, nodes_of, edges_of in *.
  destruct (default [] (cfg_nodes d)) as [|node nodes]; [done|].
  by rewrite Hfuncs, Hbinds.
Qed.

(** C3.  On a description whose nodes resolve and whose edges carry
    their source and target, [json_to_dag] calls the constructor with a
    bindings table in which the target parameter of an edge is the
    edge's [targetInput] field when present, otherwise its [sourceOutput]
    field when present, otherwise "value": the table binds that
    parameter of the target of every edge, and every binding of the table
    is that of an edge of the description, under that parameter name. *)
Theorem edge_target_input_fallback (d : dag_config) :
  nodes_of d ≠ [] →
  Forall (resolvable function_registry) (nodes_of d) →
  Forall has_source_and_target (edges_of d) →
  ∃ funcs binds,
    build d = constructed (DAG_init funcs binds)
    ∧ (∀ e, e ∈ edges_of d →
         ∃ target source,
           e !! "target" = Some target
           ∧ binding binds target (spec_target_input e) source)
    ∧ (∀ target p source, binding binds target p source →
         ∃ e, e ∈ edges_of d ∧ e !! "source" = Some source
              ∧ e !! "target" = Some target ∧ spec_target_input e = p).
Proof.
  intros Hne Hres Hwf.
  destruct (json_to_dag_tables d Hne Hres Hwf)
    as (funcs & binds & _ & Hbinds & Hbuild).
  exists funcs, binds. split; [done|].
  destruct (for_in_bind_edge_bindings (edges_of d) [] binds Hbinds)
    as (_ & Hall & Hfrom).
  split; [done|]. intros target p source Hb.
  destruct (Hfrom target p source Hb) as [(inner & Hinner & _)|He]; done.
Qed.

End BuildFacts.

(** ** The DAG service over the graph library of the specification *)

Section MeshedFacts.
Import Registry Examples.

Local Abbreviation build := (json_to_dag Meshed.DAG_init).
Local Abbreviation run_config :=
  (execute_from_config Meshed.DAG_init Meshed.DAG_call).

Lemma node_id_lookup id function : node id function !! "id" = Some id.
Proof. unfold node. apply lookup_insert_eq. Qed.

Lemma node_function_lookup id function :
  node id function !! "function" = Some function.
Proof.
  unfold node. rewrite lookup_insert_ne by done. apply lookup_insert_eq.
Qed.

(** C5.  With [add] registered under the name "add", the description
    with the single node [add_node] bound to "add" and no edges,
    executed on the inputs [a = 5] and [b = 3], returns the dictionary
    with status "success", result 8 and the description's name as
    [dag_name]. *)
Theorem execute_simple_add (r : FunctionRegistry) (name : string) :
  get_function r "add" = Ok add →
  run_config r (simple_add name) [("a", PInt 5); ("b", PInt 3)]
  = Ok [("status", PStr "success");
        ("result", PInt 8);
        ("dag_name", PStr name)].
Proof.
  intros Hadd.
  unfold execute_from_config, json_to_dag, simple_add; simpl.
  unfold resolve_node, getitem.
  rewrite node_id_lookup, node_function_lookup; simpl.
  rewrite Hadd. reflexivity.
Qed.

(** *** Argument resolution *)

Lemma assoc_supplied_args g inputs outputs n func b :
  assoc b (Meshed.supplied_args g inputs outputs n func)
  = if bool_decide (b ∈ map sp_name (sig_params func))
    then Meshed.resolve_arg g inputs outputs n b
    else None.
Proof.
  unfold Meshed.supplied_args.
  induction (sig_params func) as [|p params IH]; simpl; [done|].
  change (list_omap _ _ ?f params) with (omap f params).
  destruct (decide (b = sp_name p)) as [->|Hne].
  - rewrite bool_decide_eq_true_2 by apply list_elem_of_here.
    destruct (Meshed.resolve_arg g inputs outputs n (sp_name p)) as [v|] eqn:Hv;
      simpl.
    + by rewrite decide_True.
    + rewrite IH. by case_bool_decide.
  - assert (bool_decide (b ∈ sp_name p :: map sp_name params)
            = bool_decide (b ∈ map sp_name params)) as ->.
    { apply bool_decide_ext. rewrite elem_of_cons.
      split; [by intros [?|?]|by right]. }
    destruct (Meshed.resolve_arg g inputs outputs n (sp_name p)); simpl;
      [|done].
    by rewrite decide_False.
Qed.

Lemma no_binding_None binds n b :
  (∀ source, ¬ binding binds n b source) → assoc n binds ≫= assoc b = None.
Proof.
  intros Hnone. unfold binding in Hnone.
  destruct (assoc n binds) as [inner|] eqn:Hinner; simpl; [|done].
  destruct (assoc b inner) as [source|] eqn:Hb; [|done].
  exfalso. apply (Hnone source). by exists inner.
Qed.

(** Rule (b): without an internal binding, the node-scoped value is the
    one resolved. *)
Lemma resolve_arg_override g inputs outputs n b overrides x :
  (∀ source, ¬ binding (Meshed.g_binds g) n b source) →
  assoc n inputs = Some (PDict overrides) →
  assoc b overrides = Some x →
  Meshed.resolve_arg g inputs outputs n b = Some x.
Proof.
  intros Hnone%no_binding_None Hov Hb. unfold Meshed.resolve_arg.
  by rewrite Hnone, Hov, Hb.
Qed.

(** Rule (a): an internal binding is resolved to the output of its
    source, whatever the inputs. *)
Lemma resolve_arg_internal g inputs outputs n b source :
  binding (Meshed.g_binds g) n b source →
  Meshed.resolve_arg g inputs outputs n b = assoc source outputs.
Proof.
  intros (inner & Hinner & Hb). unfold Meshed.resolve_arg.
  by rewrite Hinner; simpl; rewrite Hb.
Qed.

(** Every invocation the walk issues is of a node of the graph, with
    the arguments resolved for it at that moment. *)
Lemma run_nodes_log g inputs (P : Meshed.invocation → Prop) order :
  ∀ outputs log,
  (∀ n func outputs',
     assoc n (Meshed.g_funcs g) = Some func →
     P (n, Meshed.supplied_args g inputs outputs' n func)) →
  Forall P log →
  Forall P (fst (Meshed.run_nodes g inputs order outputs log)).
Proof.
  induction order as [|n order IH]; intros outputs log HP Hlog; simpl;
    [done|].
  destruct (assoc n (Meshed.g_funcs g)) as [func|] eqn:Hfunc; [|by apply IH].
  assert (Forall P (log ++ [(n, Meshed.supplied_args g inputs outputs n func)]))
    as Hlog'.
  { apply Forall_app. split; [done|]. apply Forall_singleton. by apply HP. }
  destruct (Meshed.invoke func _); simpl; [by apply IH|done].
Qed.

Lemma run_log g inputs (P : Meshed.invocation → Prop) :
  (∀ n func outputs',
     assoc n (Meshed.g_funcs g) = Some func →
     P (n, Meshed.supplied_args g inputs outputs' n func)) →
  Forall P (fst (Meshed.run g inputs)).
Proof.
  intros HP. unfold Meshed.run.
  destruct (Meshed.topological_order g) as [order [|n leftover]]; simpl;
    [|by apply Forall_nil].
  pose proof (run_nodes_log g inputs P order [] [] HP (Forall_nil_2 P)) as Hlog.
  destruct (Meshed.run_nodes g inputs order [] []) as [log [outputs|e]]; done.
Qed.

(** C4.  Rule (b) comes before rule (c).  When the inputs hold a
    node-scoped override map under the id of a node and that map binds
    [b], a parameter of the node's callable that rule (a) leaves to the
    inputs (no internal binding feeds it), every invocation of that node
    receives the node-scoped value for [b], whether or not the inputs
    also hold a global entry for [b]. *)
Theorem node_override_wins (g : Meshed.Graph) (inputs : kwargs)
    (n b : string) (func : Callable) (overrides : list (string * pyval))
    (x : pyval) (args : kwargs) :
  assoc n (Meshed.g_funcs g) = Some func →
  b ∈ map sp_name (sig_params func) →
  assoc n inputs = Some (PDict overrides) →
  assoc b overrides = Some x →
  (∀ source, ¬ binding (Meshed.g_binds g) n b source) →
  (n, args) ∈ fst (Meshed.run g inputs) →
  assoc b args = Some x.
Proof.
  intros Hfunc Hparam Hov Hb Hnone Hin.
  assert (Forall (λ i : Meshed.invocation, i.1 = n → assoc b i.2 = Some x)
            (fst (Meshed.run g inputs))) as Hlog.
  { apply run_log. intros n' func' outputs' Hfunc' Hn'; simpl in *.
    subst n'. assert (func' = func) as -> by congruence.
    rewrite assoc_supplied_args, bool_decide_eq_true_2 by done.
    by apply (resolve_arg_override g inputs outputs' n b overrides x). }
  rewrite Forall_forall in Hlog. by apply (Hlog (n, args) Hin).
Qed.

(** *** The constructor's check *)

Lemma known_keys funcs n : Meshed.known funcs n = true ↔ n ∈ od_keys funcs.
Proof.
  unfold Meshed.known. rewrite bool_decide_eq_true. apply assoc_is_Some.
Qed.

Lemma check_sources_Ok funcs target inner :
  Meshed.check_sources funcs target inner = Ok tt
  ↔ ∀ p s, (p, s) ∈ inner → s ∈ od_keys funcs ∧ target ∈ od_keys funcs.
Proof.
  induction inner as [|[p s] inner IH]; simpl.
  - split; [by intros _ p s ?%elem_of_nil|done].
  - destruct (Meshed.known funcs s && Meshed.known funcs target) eqn:Hk.
    + apply andb_true_iff in Hk as [Hs%known_keys Ht%known_keys].
      rewrite IH. split.
      * intros Hall p' s' [[= -> ->]|Hin]%elem_of_cons;
          [done|by apply (Hall p' s')].
      * intros Hall p' s' Hin. apply (Hall p' s').
        by apply list_elem_of_further.
    + split; [done|]. intros Hall.
      destruct (Hall p s) as [Hs%known_keys Ht%known_keys];
        [apply list_elem_of_here|].
      by rewrite Hs, Ht in Hk.
Qed.


Lemma check_binds_Ok funcs binds :
  Meshed.check_binds funcs binds = Ok tt
  ↔ ∀ t inner p s, (t, inner) ∈ binds → (p, s) ∈ inner →
                    s ∈ od_keys funcs ∧ t ∈ od_keys funcs.
Proof.
  induction binds as [|[t inner] binds IH]; simpl.
  - split; [by intros _ t inner p s ?%elem_of_nil|done].
  - destruct (Meshed.check_sources funcs t inner) as [[]|e] eqn:Hsrc.
    + rewrite check_sources_Ok in Hsrc. rewrite IH. split.
      * intros Hall t' inner' p s [[= -> ->]|Hin]%elem_of_cons;
          [by apply Hsrc|by apply (Hall t' inner')].
      * intros Hall t' inner' p s Hin. apply (Hall t' inner').
        by apply list_elem_of_further.
    + split; [done|]. intros Hall.
      assert (Meshed.check_sources funcs t inner = Ok tt) as Hok; [|congruence].
      apply check_sources_Ok. intros p s. apply (Hall t inner p s).
      apply list_elem_of_here.
Qed.


(** With distinct keys, the entries of a bindings table are its
    bindings. *)
Lemma binding_entries binds t p s :
  unique_keys binds →
  binding binds t p s ↔ ∃ inner, (t, inner) ∈ binds ∧ (p, s) ∈ inner.
Proof.
  intros [Hkeys Hinner]. unfold binding. split.
  - intros (inner & Ht & Hp). exists inner.
    split; by apply assoc_Some_elem_of.
  - intros (inner & Ht & Hp). exists inner. split.
    + by apply elem_of_assoc.
    + apply elem_of_assoc; [by apply (Hinner t)|done].
Qed.

(** The constructor accepts exactly the tables without a dangling
    reference: cycles play no part. *)
Lemma DAG_init_Ok funcs binds :
  unique_keys binds →
  (∀ t p s, binding binds t p s → s ∈ od_keys funcs ∧ t ∈ od_keys funcs) →
  Meshed.DAG_init funcs binds
  = Ok {| Meshed.g_funcs := funcs; Meshed.g_binds := binds |}.
Proof.
  intros Hu Hall. unfold Meshed.DAG_init.
  assert (Meshed.check_binds funcs binds = Ok tt) as ->; [|done].
  apply check_binds_Ok. intros t inner p s Ht Hp.
  apply (Hall t p s). apply binding_entries; [done|]. by exists inner.
Qed.


(** *** What the two loops of [json_to_dag] leave behind *)

Lemma unique_keys_nil : unique_keys [].
Proof.
  split; [apply NoDup_nil_2|]. by intros t inner ?%elem_of_nil.
Qed.

Lemma unique_keys_od_set binds t inner :
  unique_keys binds → NoDup (od_keys inner) →
  unique_keys (od_set binds t inner).
Proof.
  intros [Hkeys Hinner] Hnew. split.
  - by apply NoDup_od_keys_od_set.
  - intros t' inner' [[-> ->]|Hin]%elem_of_od_set; [done|].
    by apply (Hinner t').
Qed.

Lemma unique_keys_lookup binds t :
  unique_keys binds → NoDup (od_keys (default [] (assoc t binds))).
Proof.
  intros [_ Hinner]. destruct (assoc t binds) as [inner|] eqn:Ht; simpl.
  - apply (Hinner t). by apply assoc_Some_elem_of.
  - apply NoDup_nil_2.
Qed.

Lemma bind_edge_unique_keys binds edge binds' :
  unique_keys binds → bind_edge binds edge = Ok binds' → unique_keys binds'.
Proof.
  intros Hu. unfold bind_edge, getitem.
  destruct (edge !! "source") as [source|]; simpl; [|done].
  destruct (edge !! "target") as [target|]; simpl; [|done].
  intros [= <-].
  assert (unique_keys match assoc target binds with
                      | Some _ => binds
                      | None => od_set binds target []
                      end) as Hu1.
  { destruct (assoc target binds); [done|].
    apply unique_keys_od_set; [done|apply NoDup_nil_2]. }
  apply unique_keys_od_set; [done|].
  apply NoDup_od_keys_od_set. by apply unique_keys_lookup.
Qed.

Lemma for_in_bind_edge_unique_keys edges : ∀ binds0 binds,
  unique_keys binds0 →
  for_in bind_edge edges binds0 = Ok binds → unique_keys binds.
Proof.
  induction edges as [|edge edges IH]; intros binds0 binds Hu; simpl.
  - by intros [= <-].
  - destruct (bind_edge binds0 edge) as [binds1|] eqn:Hedge; [|done].
    apply IH. by apply (bind_edge_unique_keys binds0 edge).
Qed.

(** A binding survives the edges that do not bind the same parameter of
    the same target. *)
Lemma for_in_bind_edge_keeps edges t p s : ∀ binds0 binds,
  for_in bind_edge edges binds0 = Ok binds →
  binding binds0 t p s →
  (∀ e, e ∈ edges →
        ¬ (e !! "target" = Some t ∧ spec_target_input e = p)) →
  binding binds t p s.
Proof.
  induction edges as [|edge edges IH]; intros binds0 binds; simpl.
  - by intros [= <-].
  - destruct (bind_edge binds0 edge) as [binds1|] eqn:Hedge; [|done].
    intros Hloop Hb Hother.
    apply bind_edge_binding in Hedge as (source & target & Hs & Ht & Hstep).
    apply (IH binds1 binds Hloop).
    + apply Hstep. right. split; [|done]. intros [-> ->].
      apply (Hother edge); [apply list_elem_of_here|done].
    + intros e He. apply Hother. by apply list_elem_of_further.
Qed.

(** The keys of [funcs] are the ids of the node entries. *)
Lemma for_in_resolve_node_keys r nodes : ∀ funcs0 funcs,
  for_in (resolve_node r) nodes funcs0 = Ok funcs →
  ∀ id, id ∈ od_keys funcs ↔ id ∈ od_keys funcs0 ∨ id ∈ node_ids nodes.
Proof.
  unfold node_ids.
  induction nodes as [|node nodes IH]; intros funcs0 funcs; simpl.
  - intros [= <-] id. split; [by left|]. by intros [?|?%elem_of_nil].
  - destruct (resolve_node r funcs0 node) as [funcs1|] eqn:Hnode; [|done].
    intros Hloop id. rewrite (IH funcs1 funcs Hloop id).
    change (list_omap _ _ ?f nodes) with (omap f nodes).
    unfold resolve_node, getitem in Hnode.
    destruct (node !! "id") as [node_id|]; simpl in Hnode; [|done].
    destruct (node !! "function") as [func_name|]; simpl in Hnode; [|done].
    destruct (get_function r func_name) as [func|[]]; try done.
    injection Hnode as <-. rewrite od_keys_od_set.
    case_bool_decide as Hin; rewrite ?elem_of_app, ?elem_of_cons,
      ?elem_of_nil; intuition (subst; auto).
Qed.

(** *** Dangling references *)


(** *** Topological ordering and cycles *)

Lemma ready_true g finished n :
  Meshed.ready g finished n = true ↔ ∀ s, s ∈ Meshed.deps g n → s ∈ finished.
Proof.
  unfold Meshed.ready. rewrite forallb_forall. split.
  - intros Hall s Hs%list_elem_of_In.
    by apply (bool_decide_eq_true_1 (s ∈ finished)), Hall.
  - intros Hall s Hs%list_elem_of_In.
    by apply (bool_decide_eq_true_2 (s ∈ finished)), Hall.
Qed.

Lemma binding_deps g n p s :
  binding (Meshed.g_binds g) n p s → s ∈ Meshed.deps g n.
Proof.
  intros (inner & Hinner & Hp). unfold Meshed.deps. rewrite Hinner.
  apply list_elem_of_fmap. exists (p, s).
  split; [done|]. by apply assoc_Some_elem_of.
Qed.

(** The ordering never reaches a node of a set each of whose members
    depends on another member. *)
Lemma kahn_avoids g (T : string → Prop) :
  (∀ n, T n → ∃ s, s ∈ Meshed.deps g n ∧ T s) →
  ∀ fuel remaining finished,
    (∀ n, n ∈ finished → ¬ T n) →
    ∀ n, T n → n ∈ remaining →
         n ∈ snd (Meshed.kahn g fuel remaining finished).
Proof.
  intros Hclosed. induction fuel as [|fuel IH];
    intros remaining finished Hdone n Hn Hin; simpl; [done|].
  destruct (find (Meshed.ready g finished) remaining) as [m|] eqn:Hfind;
    simpl; [|done].
  apply find_some in Hfind as [_ Hready]. rewrite ready_true in Hready.
  assert (¬ T m) as Hm.
  { intros (s & Hs & HTs)%Hclosed. apply (Hdone s); [|done].
    by apply Hready. }
  apply IH; [|done|].
  - intros k [->|Hk]%elem_of_cons; [done|by apply Hdone].
  - apply list_elem_of_filter. split; [|done]. by intros ->.
Qed.

(** A node on a cycle depends on a node on a cycle. *)
Lemma on_cycle_step {A : Type} (R : relation A) n :
  tc R n n → ∃ s, R n s ∧ tc R s s.
Proof.
  intros Hn. inversion Hn as [? ? Hstep|? s ? Hstep Hback]; subst.
  - by exists n.
  - exists s. split; [done|]. by eapply tc_r.
Qed.

(** A graph with a dependency cycle through one of its nodes is not
    executed: [run] reports the cycle and issues no invocation. *)
Lemma run_cycle g inputs n :
  tc (depends_on (Meshed.g_binds g)) n n →
  n ∈ od_keys (Meshed.g_funcs g) →
  ∃ m, Meshed.run g inputs = ([], Raise (CycleError m)).
Proof.
  intros Hcycle Hn.
  pose proof (kahn_avoids g (λ k, tc (depends_on (Meshed.g_binds g)) k k))
    as Havoid.
  unfold Meshed.run, Meshed.topological_order.
  specialize (Havoid
    ltac:(intros k (s & [p Hb] & Hs)%on_cycle_step;
          exists s; split; [by apply (binding_deps g k p)|done])
    (length (Meshed.g_funcs g)) (od_keys (Meshed.g_funcs g)) []
    ltac:(by intros k ?%elem_of_nil) n Hcycle Hn).
  destruct (Meshed.kahn g _ _ _) as [order [|k leftover]]; simpl in *.
  - by apply elem_of_nil in Havoid.
  - by eexists.
Qed.

Lemma deps_depends_on g n s :
  unique_keys (Meshed.g_binds g) →
  s ∈ Meshed.deps g n → depends_on (Meshed.g_binds g) n s.
Proof.
  intros [_ Hinner]. unfold Meshed.deps.
  destruct (assoc n (Meshed.g_binds g)) as [inner|] eqn:Hn;
    [|by intros ?%elem_of_nil].
  intros ([p s'] & -> & Hin)%list_elem_of_fmap.
  exists p, inner. split; [done|].
  apply elem_of_assoc; [|done].
  apply (Hinner n). by apply assoc_Some_elem_of.
Qed.

Lemma ready_false g finished n :
  Meshed.ready g finished n = false →
  ∃ s, s ∈ Meshed.deps g n ∧ s ∉ finished.
Proof.
  intros Hready.
  assert (¬ Forall (λ s, s ∈ finished) (Meshed.deps g n)) as Hnot.
  { rewrite Forall_forall. intros Hall.
    apply (ready_true g finished n) in Hall. congruence. }
  apply not_Forall_Exists in Hnot; [|apply _].
  apply Exists_exists in Hnot as (s & Hs & Hnin). by exists s.
Qed.

(** The ordering and the nodes left over partition the nodes. *)
Lemma kahn_partition g fuel : ∀ remaining finished n,
  n ∈ (Meshed.kahn g fuel remaining finished).1
  ∨ n ∈ (Meshed.kahn g fuel remaining finished).2
  ↔ n ∈ finished ∨ n ∈ remaining.
Proof.
  induction fuel as [|fuel IH]; intros remaining finished n; simpl.
  - by rewrite elem_of_reverse.
  - destruct (find (Meshed.ready g finished) remaining) as [m|] eqn:Hfind;
      simpl; [|by rewrite elem_of_reverse].
    apply find_some in Hfind as [Hm%list_elem_of_In _].
    rewrite IH, elem_of_cons, list_elem_of_filter.
    destruct (decide (n = m)) as [->|Hne]; intuition.
Qed.

(** With one unit of fuel per node, the ordering stops only when no node
    is left or when every node left has a source that is not ordered. *)
Lemma kahn_stuck g fuel : ∀ remaining finished n,
  (length remaining ≤ fuel)%nat →
  n ∈ (Meshed.kahn g fuel remaining finished).2 →
  ∃ s, s ∈ Meshed.deps g n
       ∧ s ∉ (Meshed.kahn g fuel remaining finished).1.
Proof.
  induction fuel as [|fuel IH]; intros remaining finished n Hlen; simpl.
  - destruct remaining; [by intros ?%elem_of_nil|simpl in Hlen; lia].
  - destruct (find (Meshed.ready g finished) remaining) as [m|] eqn:Hfind;
      simpl.
    + apply find_some in Hfind as [Hm%list_elem_of_In _].
      apply IH.
      pose proof (length_filter_lt (λ k, k ≠ m) remaining m Hm) as Hlt.
      specialize (Hlt ltac:(by intros ?)). lia.
    + intros Hn%list_elem_of_In.
      pose proof (find_none _ _ Hfind n Hn) as Hready.
      apply ready_false in Hready as (s & Hs & Hnin).
      exists s. by rewrite elem_of_reverse.
Qed.

(** Two positions of a list with a repetition hold the same element. *)
Lemma duplicate_indices {A : Type} `{EqDecision A} (l : list A) :
  ¬ NoDup l → ∃ i j x, (i < j)%nat ∧ l !! i = Some x ∧ l !! j = Some x.
Proof.
  induction l as [|x l IH]; intros Hnd.
  - destruct Hnd. apply NoDup_nil_2.
  - destruct (decide (x ∈ l)) as [Hin|Hnin].
    + apply list_elem_of_lookup in Hin as [j Hj].
      exists 0, (S j), x. split; [lia|done].
    + destruct IH as (i & j & y & Hlt & Hi & Hj).
      { intros Hl. apply Hnd. by apply NoDup_cons_2. }
      exists (S i), (S j), y. split; [lia|done].
Qed.

(** A walk that stays inside a list comes back to a node it has visited
    within as many steps as the list is long. *)
Lemma iter_repeats (f : string → string) (L : list string) (n : string) :
  (∀ i, Nat.iter i f n ∈ L) →
  ∃ i j, (i < j)%nat ∧ (j ≤ length L)%nat
         ∧ Nat.iter i f n = Nat.iter j f n.
Proof.
  intros Hin.
  set (path := (λ i, Nat.iter i f n) <$> seq 0 (S (length L))).
  assert (¬ NoDup path) as Hdup.
  { intros Hnd.
    assert (path ⊆+ L) as Hsub%submseteq_length.
    { apply NoDup_submseteq; [done|].
      intros x (i & -> & _)%list_elem_of_fmap. apply Hin. }
    unfold path in Hsub. rewrite length_fmap, length_seq in Hsub. lia. }
  apply duplicate_indices in Hdup as (i & j & x & Hlt & Hi & Hj).
  unfold path in Hi, Hj. rewrite list_lookup_fmap in Hi, Hj.
  destruct (seq 0 (S (length L)) !! i) as [i'|] eqn:Hi'; [|done].
  destruct (seq 0 (S (length L)) !! j) as [j'|] eqn:Hj'; [|done].
  apply lookup_seq in Hi' as [-> _]. apply lookup_seq in Hj' as [-> Hjlt].
  simpl in Hi, Hj. exists i, j.
  split; [done|]. split; [lia|congruence].
Qed.

Section CycleNode.
Variable g : Meshed.Graph.
Variable L : list string.
Hypothesis unique : unique_keys (Meshed.g_binds g).
Hypothesis closed : ∀ x, x ∈ L → ∃ s, s ∈ Meshed.deps g x ∧ s ∈ L.

Lemma next_unordered_closed x :
  x ∈ L →
  Meshed.next_unordered g L x ∈ L
  ∧ depends_on (Meshed.g_binds g) x (Meshed.next_unordered g L x).
Proof.
  intros Hx. unfold Meshed.next_unordered.
  destruct (find (λ s, bool_decide (s ∈ L)) (Meshed.deps g x)) as [s|]
    eqn:Hfind; simpl.
  - apply find_some in Hfind as [Hs%list_elem_of_In Hin%bool_decide_eq_true].
    split; [done|]. by apply deps_depends_on.
  - exfalso. destruct (closed x Hx) as (s & Hs%list_elem_of_In & Hin).
    pose proof (find_none _ _ Hfind s Hs) as Hno; simpl in Hno.
    by apply bool_decide_eq_false in Hno.
Qed.

Lemma walk_stays x i :
  x ∈ L → Nat.iter i (Meshed.next_unordered g L) x ∈ L.
Proof.
  intros Hx. induction i as [|i IH]; simpl; [done|].
  by apply next_unordered_closed.
Qed.

Lemma walk_depends x d :
  x ∈ L →
  tc (depends_on (Meshed.g_binds g)) x
     (Nat.iter (S d) (Meshed.next_unordered g L) x).
Proof.
  intros Hx. induction d as [|d IH].
  - apply tc_once. by apply next_unordered_closed.
  - eapply tc_r; [exact IH|].
    apply (next_unordered_closed
             (Nat.iter (S d) (Meshed.next_unordered g L) x)).
    by apply walk_stays.
Qed.

(** The node the [CycleError] names is on a dependency cycle. *)
Lemma cycle_node_on_cycle n :
  n ∈ L →
  tc (depends_on (Meshed.g_binds g))
     (Meshed.cycle_node g L n) (Meshed.cycle_node g L n).
Proof.
  intros Hn. unfold Meshed.cycle_node.
  set (f := Meshed.next_unordered g L).
  destruct (iter_repeats f L n) as (i & j & Hlt & Hle & Heq).
  { intros k. by apply walk_stays. }
  assert (Nat.iter (S (j - i - 1)) f (Nat.iter (length L) f n)
          = Nat.iter (length L) f n) as Hback.
  { rewrite <- Nat.iter_add.
    replace (S (j - i - 1) + length L) with ((length L - i) + j) by lia.
    rewrite Nat.iter_add, <- Heq, <- Nat.iter_add. f_equal. lia. }
  rewrite <- Hback at 2. apply walk_depends. by apply walk_stays.
Qed.

End CycleNode.

(** The walk over the nodes raises nothing but an [ExecutionError]. *)
Lemma run_nodes_raises g inputs order : ∀ outputs log log' e,
  Meshed.run_nodes g inputs order outputs log = (log', Raise e) →
  ∃ n cause, e = ExecutionError n cause.
Proof.
  induction order as [|n order IH]; intros outputs log log' e; simpl; [done|].
  destruct (assoc n (Meshed.g_funcs g)) as [func|]; [|by apply IH].
  destruct (Meshed.invoke func _) as [v|cause]; [by apply IH|].
  intros [= _ <-]. by eexists _, _.
Qed.

(** A [CycleError] is reported on a dependency cycle only, before any
    invocation, and names a node on the cycle. *)
Lemma run_CycleError g inputs log m :
  well_formed g →
  Meshed.run g inputs = (log, Raise (CycleError m)) →
  log = [] ∧ tc (depends_on (Meshed.g_binds g)) m m.
Proof.
  intros [Hu Hknown]. unfold Meshed.run, Meshed.topological_order.
  pose proof (kahn_partition g (length (Meshed.g_funcs g))
                (od_keys (Meshed.g_funcs g)) []) as Hpart.
  pose proof (kahn_stuck g (length (Meshed.g_funcs g))
                (od_keys (Meshed.g_funcs g)) []) as Hstuck.
  destruct (Meshed.kahn g _ _ _) as [order [|n leftover]]; simpl in *.
  - destruct (Meshed.run_nodes g inputs order [] []) as [log' [outputs|e]]
      eqn:Hrun; [done|].
    apply run_nodes_raises in Hrun as (k & cause & ->). done.
  - intros [= <- <-]. split; [done|].
    apply cycle_node_on_cycle; [done| |apply list_elem_of_here].
    intros x Hx.
    destruct (Hstuck x) as (s & Hs & Hnot); [|done|].
    { unfold od_keys. by rewrite length_map. }
    exists s. split; [done|].
    pose proof (deps_depends_on g x s Hu Hs) as [p Hb].
    destruct (Hknown x p s Hb) as [Hkey _].
    destruct (proj2 (Hpart s)) as [?|?]; [by right|done|done].
Qed.

(** C1.  Take a description with a non-empty node sequence whose
    entries all resolve and whose edges build to a bindings table that
    references nodes of the description only and contains a dependency
    cycle.  Then [json_to_dag] succeeds and returns the graph with that
    table; executing the graph reports a [CycleError] naming a node on a
    cycle and invokes no callable; [execute_dag] raises it as "DAG
    execution failed: ..." and [execute_from_config] returns it with
    status "error". *)
Theorem cycle_reported_at_execution (r : FunctionRegistry) (d : dag_config)
    (nodes edges : list entry) (binds : odict (odict string)) (n : string)
    (inputs : kwargs) :
  cfg_nodes d = Some nodes → nodes ≠ [] →
  Forall (resolvable r) nodes →
  cfg_edges d = Some edges →
  for_in bind_edge edges [] = Ok binds →
  (∀ t p s, binding binds t p s →
            s ∈ node_ids nodes ∧ t ∈ node_ids nodes) →
  tc (depends_on binds) n n →
  ∃ funcs m,
    build r d = Ok {| Meshed.g_funcs := funcs; Meshed.g_binds := binds |}
    ∧ Meshed.run {| Meshed.g_funcs := funcs; Meshed.g_binds := binds |} inputs
      = ([], Raise (CycleError m))
    ∧ tc (depends_on binds) m m
    ∧ execute_dag Meshed.DAG_call
        {| Meshed.g_funcs := funcs; Meshed.g_binds := binds |} inputs
      = Raise (RuntimeError ("DAG execution failed: " +:+
                              exn_str (CycleError m)))
    ∧ run_config r d inputs
      = Ok [("status", PStr "error");
            ("error", PStr ("DAG execution failed: " +:+
                              exn_str (CycleError m)));
            ("dag_name", PStr (default "unnamed" (cfg_name d)))].
Proof.
  intros Hnodes Hne Hres Hedges Hbinds Hknown Hcycle.
  destruct (for_in_resolvable r nodes [] Hres) as [funcs Hfuncs].
  pose proof (for_in_resolve_node_keys r nodes [] funcs Hfuncs) as Hkeys.
  pose proof (for_in_bind_edge_unique_keys edges [] binds
                unique_keys_nil Hbinds) as Hu.
  assert (∀ id, id ∈ od_keys funcs ↔ id ∈ node_ids nodes) as Hids.
  { intros id. rewrite Hkeys. split; [|by right].
    by intros [?%elem_of_nil|?]. }
  set (g := {| Meshed.g_funcs := funcs; Meshed.g_binds := binds |}).
  assert (well_formed g) as Hwf.
  { split; [done|]. intros t p s Hb. simpl. rewrite !Hids.
    by apply (Hknown t p s). }
  assert (build r d = Ok g) as Hbuild.
  { rewrite (json_to_dag_loops Meshed.DAG_init r d nodes funcs binds)
      by (by rewrite ?Hedges).
    rewrite DAG_init_Ok; [done|done|]. apply Hwf. }
  assert (n ∈ od_keys funcs) as Hn.
  { apply on_cycle_step in Hcycle as (s & [p Hb] & _).
    apply Hids. by apply (Hknown n p s). }
  destruct (run_cycle g inputs n Hcycle Hn) as [m Hrun].
  destruct (run_CycleError g inputs [] m Hwf Hrun) as [_ Hm].
  assert (execute_dag Meshed.DAG_call g inputs
          = Raise (RuntimeError ("DAG execution failed: " +:+
                                  exn_str (CycleError m)))) as Hexec.
  { unfold execute_dag, Meshed.DAG_call. by rewrite Hrun. }
  exists funcs, m. do 4 (split; [done|]).
  unfold execute_from_config. rewrite Hbuild; simpl. by rewrite Hexec.
Qed.

End MeshedFacts.

(** ** The properties on the descriptions of the tests *)

Section Instances.
Import Registry Examples.

Local Ltac in_list := vm_compute; repeat constructor.

Local Ltac all_resolvable :=
  repeat (apply Forall_cons; split);
  [ .. | apply Forall_nil_2 ];
  (split;
   [ rewrite node_id_lookup; by eexists
   | eexists; split; [apply node_function_lookup | vm_compute; by eexists] ]).

Lemma cycle_reported_at_execution_witness :
  ∃ funcs m,
    json_to_dag Meshed.DAG_init registry_with_functions cyclic
    = Ok {| Meshed.g_funcs := funcs; Meshed.g_binds := cyclic_binds |}
    ∧ Meshed.run {| Meshed.g_funcs := funcs; Meshed.g_binds := cyclic_binds |}
        chained_inputs
      = ([], Raise (CycleError m))
    ∧ tc (depends_on cyclic_binds) m m
    ∧ execute_dag Meshed.DAG_call
        {| Meshed.g_funcs := funcs; Meshed.g_binds := cyclic_binds |}
        chained_inputs
      = Raise (RuntimeError ("DAG execution failed: " +:+
                              exn_str (CycleError m)))
    ∧ execute_from_config Meshed.DAG_init Meshed.DAG_call
        registry_with_functions cyclic chained_inputs
      = Ok [("status", PStr "error");
            ("error", PStr ("DAG execution failed: " +:+
                              exn_str (CycleError m)));
            ("dag_name", PStr "cyclic")].
Proof.
  apply (cycle_reported_at_execution registry_with_functions cyclic
           [node "A" "add"; node "B" "add"]
           [<["targetInput" := "a"]> (edge "B" "A");
            <["targetInput" := "a"]> (edge "A" "B")]
           cyclic_binds "A" chained_inputs).
  - reflexivity.
  - discriminate.
  - all_resolvable.
  - reflexivity.
  - vm_compute. reflexivity.
  - intros t p s (inner & Ht & Hp). unfold cyclic_binds in Ht. simpl in Ht.
    repeat case_decide; simplify_eq; simpl in Hp;
      repeat case_decide; simplify_eq; split; in_list.
  - apply (tc_l _ "A" "B" "A").
    + exists "a", [("a", "B")]. split; reflexivity.
    + apply tc_once. exists "a", [("a", "A")]. split; reflexivity.
Defined.


Lemma edge_target_input_fallback_witness :
  ∃ funcs binds,
    json_to_dag keep_tables registry_with_functions fallback
    = constructed (keep_tables funcs binds)
    ∧ (∀ e, e ∈ edges_of fallback →
         ∃ target source,
           e !! "target" = Some target
           ∧ binding binds target (spec_target_input e) source)
    ∧ (∀ target p source, binding binds target p source →
         ∃ e, e ∈ edges_of fallback ∧ e !! "source" = Some source
              ∧ e !! "target" = Some target ∧ spec_target_input e = p).
Proof.
  apply (edge_target_input_fallback keep_tables registry_with_functions
           fallback).
  - discriminate.
  - all_resolvable.
  - repeat (apply Forall_cons; split); [ .. | apply Forall_nil_2 ];
      split; vm_compute; by eexists.
Defined.

(** The table the constructor receives for the three edges of
    [fallback]. *)
Example fallback_table :
  json_to_dag keep_tables registry_with_functions fallback
  = Ok ([("n1", add); ("n2", add); ("n3", add); ("sink", add)],
        fallback_binds).
Proof. vm_compute. reflexivity. Qed.

Lemma node_override_wins_witness :
  ("step2", [("a", PInt 8); ("b", PInt 2)])
    ∈ fst (Meshed.run chained_graph chained_inputs)
  ∧ assoc "b" [("a", PInt 8); ("b", PInt 2)] = Some (PInt 2).
Proof.
  assert (("step2", [("a", PInt 8); ("b", PInt 2)])
            ∈ fst (Meshed.run chained_graph chained_inputs)) as Hin
    by in_list.
  split; [exact Hin|].
  apply (node_override_wins chained_graph chained_inputs "step2" "b"
           multiply [("b", PInt 2)] (PInt 2)
           [("a", PInt 8); ("b", PInt 2)]).
  - reflexivity.
  - in_list.
  - reflexivity.
  - reflexivity.
  - intros source (inner & Ht & Hp). vm_compute in Ht.
    injection Ht as <-. vm_compute in Hp. discriminate.
  - exact Hin.
Defined.

Lemma execute_simple_add_witness :
  execute_from_config Meshed.DAG_init Meshed.DAG_call
    registry_with_functions (simple_add "simple_add")
    [("a", PInt 5); ("b", PInt 3)]
  = Ok [("status", PStr "success");
        ("result", PInt 8);
        ("dag_name", PStr "simple_add")].
Proof.
  apply (execute_simple_add registry_with_functions "simple_add").
  vm_compute. reflexivity.
Defined.

Lemma json_to_dag_unknown_function_witness :
  ∃ pre node post node_id func_name,
    [Examples.node "node1" "nonexistent"] = pre ++ node :: post
    ∧ Forall (resolvable registry_with_functions) pre
    ∧ node !! "id" = Some node_id
    ∧ node !! "function" = Some func_name
    ∧ _functions registry_with_functions !! func_name = None
    ∧ json_to_dag Meshed.DAG_init registry_with_functions invalid_dag
      = Raise (ValueError ("Function '" +:+ func_name +:+
                 "' not found in registry for node '" +:+ node_id +:+ "'")).
Proof.
  apply (json_to_dag_unknown_function Meshed.DAG_init
           registry_with_functions invalid_dag
           [Examples.node "node1" "nonexistent"]).
  - reflexivity.
  - apply Forall_cons. split; [|apply Forall_nil_2].
    split; [rewrite node_id_lookup|rewrite node_function_lookup]; by eexists.
  - apply Exists_cons_hd. exists "nonexistent".
    split; [apply node_function_lookup|vm_compute; reflexivity].
Defined.

Lemma json_to_dag_empty_nodes_witness :
  json_to_dag Meshed.DAG_init registry_with_functions empty_dag
  = Raise (ValueError "DAG must have at least one node")
  ∧ ∀ dag, json_to_dag Meshed.DAG_init registry_with_functions empty_dag
           ≠ Ok dag.
Proof.
  apply (json_to_dag_empty_nodes Meshed.DAG_init registry_with_functions
           empty_dag).
  reflexivity.
Defined.

(** *** The tests of the repository and the examples of the specification *)

(** [repr] of strings with quotes and with characters that are not
    printable. *)
Example repr_examples :
  py_repr "id" = "'id'"
  ∧ py_repr "it's" = String dquote ("it's" +:+ String dquote "")
  ∧ py_repr (String (ascii_of_N 127) "") = "'\x7f'"
  ∧ py_repr (String (ascii_of_N 160) "x") = "'\xa0x'"
  ∧ py_repr (String (ascii_of_N 173) "") = "'\xad'"
  ∧ py_repr (String (ascii_of_N 233) "")
    = String squote (String (ascii_of_N 233) (String squote "")).
Proof. repeat split; vm_compute; reflexivity. Qed.

(** [test_chained_dag_execution], with the result the specification gives
    for it: [step1] computes 8 and [step2] computes [multiply(8, 2)]. *)
Example chained_execution :
  execute_from_config Meshed.DAG_init Meshed.DAG_call
    registry_with_functions chained chained_inputs
  = Ok [("status", PStr "success"); ("result", PInt 16);
        ("dag_name", PStr "chained")]
  ∧ json_to_dag Meshed.DAG_init registry_with_functions chained
    = Ok chained_graph
  ∧ fst (Meshed.run chained_graph chained_inputs)
    = [("step1", [("a", PInt 5); ("b", PInt 3)]);
       ("step2", [("a", PInt 8); ("b", PInt 2)])].
Proof. repeat split; vm_compute; reflexivity. Qed.

(** [test_execute_from_config_error_handling] *)
Example error_handling :
  execute_from_config Meshed.DAG_init Meshed.DAG_call
    registry_with_functions
    {| cfg_name := Some "error_dag";
       cfg_nodes := Some [node "node1" "nonexistent"];
       cfg_edges := Some [];
       cfg_params := None |} []
  = Ok [("status", PStr "error");
        ("error", PStr "Function 'nonexistent' not found in registry for node 'node1'");
        ("dag_name", PStr "error_dag")].
Proof. vm_compute. reflexivity. Qed.

(** With two unresolvable nodes, the error names the first. *)
Example two_unknown_first :
  json_to_dag Meshed.DAG_init registry_with_functions two_unknown
  = Raise (ValueError
             "Function 'missing1' not found in registry for node 'n1'").
Proof. vm_compute. reflexivity. Qed.

(** A node entry without its [id] makes [json_to_dag] raise the
    [KeyError] of the subscript, which [execute_from_config] reports. *)
Example missing_id_reported :
  json_to_dag Meshed.DAG_init registry_with_functions missing_id
  = Raise (KeyError "id")
  ∧ execute_from_config Meshed.DAG_init Meshed.DAG_call
      registry_with_functions missing_id []
    = Ok [("status", PStr "error"); ("error", PStr "'id'");
          ("dag_name", PStr "unnamed")].
Proof. split; vm_compute; reflexivity. Qed.

(** [test_get_metadata]: the call that registers [process] raises, and
    the lookup of its metadata raises in turn. *)
Lemma register_stores_function_without_metadata_witness :
  snd (register init "process" process false)
  = Raise (TypeError "list indices must be integers or slices, not str")
  ∧ get_function (fst (register init "process" process false)) "process"
    = Ok process
  ∧ get_metadata (fst (register init "process" process false)) "process"
    = Raise (KeyError "Function 'process' not found in registry")
  ∧ ¬ consistent (fst (register init "process" process false))
  ∧ unregister (fst (register init "process" process false)) "process"
    = (init, Raise (KeyError "process")).
Proof.
  apply (register_stores_function_without_metadata [] "process" process false).
  - vm_compute. by intros [f Hf].
  - reflexivity.
  - discriminate.
Defined.

(** [test_unregister_function], [test_override_function] and
    [test_register_duplicate_without_override_raises], whose functions
    have no parameters. *)
Example tests_without_parameters :
  ¬ is_ok (get_function (run_calls [CallRegister "temp" temp_func false;
                                    CallUnregister "temp"]) "temp")
  ∧ run_calls [CallRegister "temp" temp_func false; CallUnregister "temp"]
    = init
  ∧ get_function (run_calls [CallRegister "func" func_v1 false;
                             CallRegister "func" func_v2 true]) "func"
    = Ok func_v2
  ∧ register (run_calls [CallRegister "func" temp_func false])
      "func" temp_func false
    = (run_calls [CallRegister "func" temp_func false],
       Raise (ValueError
                "Function 'func' already registered. Use override=True to replace.")).
Proof.
  split; [vm_compute; by intros [? ?]|]. repeat split; vm_compute; reflexivity.
Qed.

End Instances.

(** * Further properties *)

(** ** The function registry *)

Section RegistryMore.
Import Registry.

(** X1.  In every registry obtained from a fresh one by [register] and
    [unregister] calls, the metadata [get_metadata] returns for a name
    carries that name and an empty parameter list, and is that of a
    callable without parameters that a [register] call was given under
    the name; and the name has a function.  When [register] returns
    without raising, [get_function] returns the function it was given
    and [get_metadata] the metadata of that function, which has no
    parameter. *)
Theorem metadata_describes_function (cs : list call) (name : string) :
  (∀ m, get_metadata (run_calls cs) name = Ok m →
     is_ok (get_function (run_calls cs) name)
     ∧ fm_name m = name
     ∧ fm_parameters m = []
     ∧ ∃ func, registered_in cs name func
               ∧ sig_params func = []
               ∧ m = metadata_of name func)
  ∧ (∀ func override,
       snd (register (run_calls cs) name func override) = Ok tt →
       get_function (fst (register (run_calls cs) name func override)) name
       = Ok func
       ∧ get_metadata (fst (register (run_calls cs) name func override)) name
         = Ok (metadata_of name func)
       ∧ sig_params func = []).
Proof.
  split.
  - intros m. unfold get_metadata.
    destruct (_metadata (run_calls cs) !! name) as [m'|] eqn:Hm; [|done].
    intros [= ->].
    destruct (run_calls_tracked cs name m Hm) as (Hf & func & Hreg & Hp & ->).
    split; [by apply get_function_ok, elem_of_dom|].
    do 2 (split; [done|]). by exists func.
  - intros func override. unfold register.
    destruct (bool_decide _ && negb override); simpl; [done|].
    destruct (_extract_metadata name func) as [metadata|e] eqn:Hex; simpl;
      [|done].
    intros _. apply extract_metadata_Ok in Hex as (_ & Hp & ->).
    unfold get_function, get_metadata; simpl. by rewrite !lookup_insert_eq.
Qed.

(** X2.  [register] and [unregister] touch one name only: whatever their
    outcome, [get_function] and [get_metadata] answer as before on every
    other name. *)
Theorem register_unregister_frame (self : FunctionRegistry)
    (name other : string) (func : Callable) (override : bool) :
  other ≠ name →
  get_function (fst (register self name func override)) other
  = get_function self other
  ∧ get_metadata (fst (register self name func override)) other
    = get_metadata self other
  ∧ get_function (fst (unregister self name)) other
    = get_function self other
  ∧ get_metadata (fst (unregister self name)) other
    = get_metadata self other.
Proof.
  intros Hne. unfold get_function, get_metadata, register, unregister.
  split; [|split; [|split]].
  - destruct (bool_decide _ && negb override); simpl; [done|].
    destruct (_extract_metadata name func); simpl; by rewrite lookup_insert_ne.
  - destruct (bool_decide _ && negb override); simpl; [done|].
    destruct (_extract_metadata name func); simpl; [|done].
    by rewrite lookup_insert_ne.
  - destruct (_functions self !! name); simpl; [|done].
    destruct (_metadata self !! name); simpl; by rewrite lookup_delete_ne.
  - destruct (_functions self !! name); simpl; [|done].
    destruct (_metadata self !! name); simpl; [|done].
    by rewrite lookup_delete_ne.
Qed.

(** X3.  On a registry obtained from a fresh one by [register] and
    [unregister] calls, registering a name that is not registered and
    unregistering it again gives the registry back, whatever the outcome
    of the two calls: [register] raises what the extraction of the
    metadata raises, and when it raises, [unregister] raises
    [KeyError(name)] after it has removed the function. *)
Theorem register_then_unregister (cs : list call) (name : string)
    (func : Callable) (override : bool) :
  ¬ is_ok (get_function (run_calls cs) name) →
  fst (unregister (fst (register (run_calls cs) name func override)) name)
  = run_calls cs
  ∧ snd (register (run_calls cs) name func override)
    = match _extract_metadata name func with
      | Ok _ => Ok tt
      | Raise e => Raise e
      end
  ∧ snd (unregister (fst (register (run_calls cs) name func override)) name)
    = match _extract_metadata name func with
      | Ok _ => Ok tt
      | Raise _ => Raise (KeyError name)
      end.
Proof.
  intros Hf%not_registered.
  pose proof (run_calls_no_function cs name Hf) as Hm.
  rewrite register_accepted
    by (rewrite Hf; apply andb_false_iff; left;
        apply bool_decide_eq_false_2; by intros [? ?]).
  destruct (_extract_metadata name func) as [metadata|e]; simpl;
    unfold unregister; simpl; rewrite ?lookup_insert_eq, ?Hm; simpl.
  - split; [|done]. apply registry_eq; simpl; by apply delete_insert_id.
  - split; [|done]. apply registry_eq; simpl; [|done].
    by apply delete_insert_id.
Qed.

(** X4.  On such a registry, the keys of [get_all_metadata] are the
    names on which [get_metadata] succeeds, all of which have a
    function, and the dictionary under a key is that of a callable
    without parameters that a [register] call was given under the key:
    its [name] entry is the key and its [parameters] entry is the empty
    list. *)
Theorem get_all_metadata_entries (repr : pyval → string) (cs : list call) :
  (∀ name, is_Some (get_all_metadata repr (run_calls cs) !! name)
           ↔ is_ok (get_metadata (run_calls cs) name))
  ∧ dom (get_all_metadata repr (run_calls cs)) ⊆ dom (_functions (run_calls cs))
  ∧ ∀ name d, get_all_metadata repr (run_calls cs) !! name = Some d →
      ∃ func, registered_in cs name func
              ∧ sig_params func = []
              ∧ d = described name func.
Proof.
  unfold get_all_metadata. split; [|split].
  - intros name. rewrite lookup_fmap, fmap_is_Some, get_metadata_ok.
    by rewrite elem_of_dom.
  - rewrite dom_fmap_L. intros name [m Hm]%elem_of_dom.
    apply elem_of_dom. by apply (run_calls_tracked cs name m).
  - intros name d. rewrite lookup_fmap.
    destruct (_metadata (run_calls cs) !! name) as [m|] eqn:Hm; [|done].
    intros [= <-].
    destruct (run_calls_tracked cs name m Hm) as (_ & func & Hreg & Hp & ->).
    by exists func.
Qed.

Lemma assoc_snoc {V : Type} (l : list (string * V)) k k' v :
  assoc k (l ++ [(k', v)])
  = match assoc k l with
    | Some x => Some x
    | None => if decide (k = k') then Some v else None
    end.
Proof.
  induction l as [|[k1 v1] l IH]; simpl; [done|].
  by destruct (decide (k = k1)).
Qed.

Lemma extracted_cons n f fs :
  extracted ((n, f) :: fs)
  = match _extract_metadata n f with
    | Ok m => (n, m) :: extracted fs
    | Raise _ => extracted fs
    end.
Proof. unfold extracted; simpl. by destruct (_extract_metadata n f). Qed.

Lemma elem_of_extracted fs name m :
  (name, m) ∈ extracted fs
  ↔ ∃ func, (name, func) ∈ fs ∧ _extract_metadata name func = Ok m.
Proof.
  unfold extracted. rewrite list_elem_of_omap. split.
  - intros ([n f] & Hin & Hex); simpl in Hex.
    destruct (_extract_metadata n f) as [m'|] eqn:Hm; [|done].
    injection Hex as -> ->. by exists f.
  - intros (func & Hin & Hex). exists (name, func); simpl. by rewrite Hex.
Qed.

Lemma assoc_None_not_elem_of {V : Type} (d : odict V) k v :
  assoc k d = None → (k, v) ∉ d.
Proof.
  intros Hnone Hin.
  assert (is_Some (assoc k d)) as [? ?]; [|congruence].
  apply assoc_is_Some. apply list_elem_of_fmap. by exists (k, v).
Qed.

Lemma assoc_extracted_None fs name :
  (∀ func, (name, func) ∈ fs → ¬ is_ok (_extract_metadata name func)) →
  assoc name (reverse (extracted fs)) = None.
Proof.
  intros Hall.
  destruct (assoc name (reverse (extracted fs))) as [m|] eqn:Hm; [|done].
  apply assoc_Some_elem_of in Hm. rewrite elem_of_reverse in Hm.
  apply elem_of_extracted in Hm as (func & Hin & Hex).
  exfalso. apply (Hall func Hin). by exists m.
Qed.

Lemma assoc_extracted_last fs name func m :
  assoc name (reverse fs) = Some func →
  _extract_metadata name func = Ok m →
  assoc name (reverse (extracted fs)) = Some m.
Proof.
  intros Hlast Hex. induction fs as [|[n f] fs IH]; [done|].
  rewrite reverse_cons, assoc_snoc in Hlast. rewrite extracted_cons.
  destruct (assoc name (reverse fs)) as [func'|] eqn:Hfs.
  - specialize (IH Hlast).
    destruct (_extract_metadata n f); [|done].
    by rewrite reverse_cons, assoc_snoc, IH.
  - destruct (decide (name = n)) as [->|Hne]; [|done].
    injection Hlast as ->. rewrite Hex, reverse_cons, assoc_snoc.
    rewrite assoc_extracted_None; [by rewrite decide_True|].
    intros func' Hin _.
    by apply (assoc_None_not_elem_of (reverse fs) n func');
      [|apply elem_of_reverse].
Qed.

Lemma register_example_functions_lookup fs : ∀ registry name,
  _functions (register_example_functions fs registry) !! name
  = match assoc name (reverse fs) with
    | Some func => Some func
    | None => _functions registry !! name
    end
  ∧ _metadata (register_example_functions fs registry) !! name
    = match assoc name (reverse (extracted fs)) with
      | Some m => Some m
      | None => _metadata registry !! name
      end.
Proof.
  unfold register_example_functions.
  induction fs as [|[n f] fs IH]; intros registry name; [done|].
  rewrite extracted_cons, reverse_cons, assoc_snoc. simpl.
  destruct (IH (fst (register registry n f true)) name) as [-> ->].
  rewrite register_accepted by apply andb_false_r.
  destruct (_extract_metadata n f) as [m|e]; simpl.
  - rewrite reverse_cons, assoc_snoc. split.
    + destruct (assoc name (reverse fs)) as [func|]; [done|].
      destruct (decide (name = n)) as [->|Hne].
      * by rewrite lookup_insert_eq.
      * by rewrite lookup_insert_ne.
    + destruct (assoc name (reverse (extracted fs))) as [m'|]; [done|].
      destruct (decide (name = n)) as [->|Hne].
      * by rewrite lookup_insert_eq.
      * by rewrite lookup_insert_ne.
  - split; [|done].
    destruct (assoc name (reverse fs)) as [func|]; [done|].
    destruct (decide (name = n)) as [->|Hne].
    + by rewrite lookup_insert_eq.
    + by rewrite lookup_insert_ne.
Qed.

(** X5.  Whatever the registry held before, after
    [register_example_functions] every listed name is bound to the last
    function listed under it, and to the metadata of that function when
    its extraction succeeds; a name under which no listed function has
    its metadata extracted keeps the metadata it had, or none; a name
    that is not listed keeps its function; when every listed function
    has a parameter, the metadata table is as it was; and running the
    registration a second time changes nothing. *)
Theorem register_example_functions_registers
    (EXAMPLE_FUNCTIONS : list (string * Callable))
    (registry : FunctionRegistry) :
  (∀ name func, assoc name (reverse EXAMPLE_FUNCTIONS) = Some func →
     get_function (register_example_functions EXAMPLE_FUNCTIONS registry) name
     = Ok func
     ∧ ∀ m, _extract_metadata name func = Ok m →
         get_metadata (register_example_functions EXAMPLE_FUNCTIONS registry)
           name
         = Ok m)
  ∧ (∀ name,
       (∀ func, (name, func) ∈ EXAMPLE_FUNCTIONS →
                ¬ is_ok (_extract_metadata name func)) →
       get_metadata (register_example_functions EXAMPLE_FUNCTIONS registry) name
       = get_metadata registry name)
  ∧ (∀ name, name ∉ map fst EXAMPLE_FUNCTIONS →
       get_function (register_example_functions EXAMPLE_FUNCTIONS registry) name
       = get_function registry name)
  ∧ (Forall (λ nf, sig_params nf.2 ≠ []) EXAMPLE_FUNCTIONS →
       _metadata (register_example_functions EXAMPLE_FUNCTIONS registry)
       = _metadata registry)
  ∧ register_example_functions EXAMPLE_FUNCTIONS
      (register_example_functions EXAMPLE_FUNCTIONS registry)
    = register_example_functions EXAMPLE_FUNCTIONS registry.
Proof.
  split; [|split; [|split; [|split]]].
  - intros name func Hlast. unfold get_function, get_metadata.
    destruct (register_example_functions_lookup EXAMPLE_FUNCTIONS
                registry name) as [-> ->].
    rewrite Hlast. split; [done|]. intros m Hex.
    by rewrite (assoc_extracted_last EXAMPLE_FUNCTIONS name func m).
  - intros name Hall. unfold get_metadata.
    destruct (register_example_functions_lookup EXAMPLE_FUNCTIONS
                registry name) as [_ ->].
    by rewrite assoc_extracted_None.
  - intros name Hnot. unfold get_function.
    destruct (register_example_functions_lookup EXAMPLE_FUNCTIONS
                registry name) as [-> _].
    destruct (assoc name (reverse EXAMPLE_FUNCTIONS)) as [func|] eqn:Hlast;
      [|done].
    exfalso. apply Hnot. apply assoc_Some_elem_of in Hlast.
    rewrite elem_of_reverse in Hlast.
    apply list_elem_of_fmap. by exists (name, func).
  - intros Hparams. apply map_eq. intros name.
    destruct (register_example_functions_lookup EXAMPLE_FUNCTIONS
                registry name) as [_ ->].
    rewrite assoc_extracted_None; [done|].
    intros func Hin [m (_ & Hnil & _)%extract_metadata_Ok].
    rewrite Forall_forall in Hparams. by apply (Hparams (name, func)).
  - apply registry_eq; apply map_eq; intros name.
    + destruct (register_example_functions_lookup EXAMPLE_FUNCTIONS
        (register_example_functions EXAMPLE_FUNCTIONS registry) name)
        as [-> _].
      destruct (register_example_functions_lookup EXAMPLE_FUNCTIONS
                  registry name) as [-> _].
      by destruct (assoc name (reverse EXAMPLE_FUNCTIONS)).
    + destruct (register_example_functions_lookup EXAMPLE_FUNCTIONS
        (register_example_functions EXAMPLE_FUNCTIONS registry) name)
        as [_ ->].
      destruct (register_example_functions_lookup EXAMPLE_FUNCTIONS
                  registry name) as [_ ->].
      by destruct (assoc name (reverse (extracted EXAMPLE_FUNCTIONS))).
Qed.

End RegistryMore.

(** ** The two tables [json_to_dag] hands to the graph library *)

Section TablesFacts.
Import Registry.
Context {DAG : Type}.
Variable DAG_init : odict Callable → odict (odict string) → result DAG.
Variable function_registry : FunctionRegistry.

Lemma for_in_bind_edge_origin edges t p s : ∀ binds0 binds,
  for_in bind_edge edges binds0 = Ok binds →
  binding binds t p s →
  (binding binds0 t p s ∧ ∀ e, e ∈ edges → ¬ binds_param t p e)
  ∨ ∃ e, is_last (binds_param t p) edges e ∧ e !! "source" = Some s.
Proof.
  induction edges as [|edge edges IH]; intros binds0 binds; simpl.
  - intros [= <-] Hb. left. split; [done|]. by intros e ?%elem_of_nil.
  - destruct (bind_edge binds0 edge) as [binds1|] eqn:Hedge; [|done].
    intros Hloop Hb.
    apply bind_edge_binding in Hedge as (source & target & Hs & Ht & Hstep).
    destruct (IH binds1 binds Hloop Hb)
      as [[Hb1 Hnone]|(e & (pre & post & -> & He & Hpost) & Hsrc)].
    + apply Hstep in Hb1 as [(-> & -> & ->)|[Hnot Hb0]].
      * right. exists edge. split; [|done].
        exists [], edges. split; [done|]. split; [done|]. exact Hnone.
      * left. split; [done|].
        intros e [->|He]%elem_of_cons; [|by apply Hnone].
        intros [Het Hep]. apply Hnot. split; congruence.
    + right. exists e. split; [|done].
      by exists (edge :: pre), post.
Qed.

(** The table the loop over the edges builds binds a parameter to the
    source of the last edge that binds it. *)
Lemma bind_edges_last (edges : list entry) (binds : odict (odict string)) :
  for_in bind_edge edges [] = Ok binds →
  ∀ t p s,
    binding binds t p s
    ↔ ∃ e, is_last (binds_param t p) edges e ∧ e !! "source" = Some s.
Proof.
  intros Hloop t p s. split.
  - intros Hb.
    destruct (for_in_bind_edge_origin edges t p s [] binds Hloop Hb)
      as [[(inner & Hnil & _) _]|He]; done.
  - intros (e & (pre & post & -> & [Ht Hp] & Hpost) & Hs).
    rewrite for_in_app in Hloop.
    destruct (for_in bind_edge pre []) as [binds0|]; [|done].
    simpl in Hloop.
    destruct (bind_edge binds0 e) as [binds1|] eqn:Hedge; [|done].
    pose proof Hedge as (s' & t' & Hs' & Ht' & Hstep)%bind_edge_binding.
    apply (for_in_bind_edge_keeps post t p s binds1 binds Hloop).
    + apply Hstep. left. split; [congruence|]. split; [done|congruence].
    + intros e' He'. by apply Hpost.
Qed.

Lemma resolve_node_Ok funcs node funcs' :
  resolve_node function_registry funcs node = Ok funcs' →
  ∃ node_id func_name func,
    node !! "id" = Some node_id
    ∧ node !! "function" = Some func_name
    ∧ _functions function_registry !! func_name = Some func
    ∧ funcs' = od_set funcs node_id func.
Proof.
  unfold resolve_node, getitem, get_function.
  destruct (node !! "id") as [node_id|]; simpl; [|done].
  destruct (node !! "function") as [func_name|]; simpl; [|done].
  destruct (_functions function_registry !! func_name) as [func|] eqn:Hreg;
    [|done].
  intros [= <-]. by exists node_id, func_name, func.
Qed.

Lemma for_in_resolve_node_NoDup nodes : ∀ funcs0 funcs,
  NoDup (od_keys funcs0) →
  for_in (resolve_node function_registry) nodes funcs0 = Ok funcs →
  NoDup (od_keys funcs).
Proof.
  induction nodes as [|node nodes IH]; intros funcs0 funcs Hnd; simpl.
  - by intros [= <-].
  - destruct (resolve_node function_registry funcs0 node) as [funcs1|]
      eqn:Hnode; [|done].
    apply resolve_node_Ok in Hnode as (id & fname & f & _ & _ & _ & ->).
    apply IH. by apply NoDup_od_keys_od_set.
Qed.

Lemma for_in_resolve_node_keeps nodes id f : ∀ funcs0 funcs,
  for_in (resolve_node function_registry) nodes funcs0 = Ok funcs →
  assoc id funcs0 = Some f →
  (∀ n, n ∈ nodes → n !! "id" ≠ Some id) →
  assoc id funcs = Some f.
Proof.
  induction nodes as [|node nodes IH]; intros funcs0 funcs; simpl.
  - by intros [= <-].
  - destruct (resolve_node function_registry funcs0 node) as [funcs1|]
      eqn:Hnode; [|done].
    apply resolve_node_Ok in Hnode as (id' & fname & f' & Hid & _ & _ & ->).
    intros Hloop Hf Hother. apply (IH _ _ Hloop).
    + rewrite assoc_od_set_ne; [done|]. intros ->.
      by apply (Hother node); [apply list_elem_of_here|].
    + intros n Hn. apply Hother. by apply list_elem_of_further.
Qed.

Lemma for_in_resolve_node_origin nodes id f : ∀ funcs0 funcs,
  for_in (resolve_node function_registry) nodes funcs0 = Ok funcs →
  assoc id funcs = Some f →
  (assoc id funcs0 = Some f ∧ ∀ n, n ∈ nodes → n !! "id" ≠ Some id)
  ∨ ∃ node, is_last (λ n : entry, n !! "id" = Some id) nodes node
            ∧ ∃ func_name, node !! "function" = Some func_name
                ∧ _functions function_registry !! func_name = Some f.
Proof.
  induction nodes as [|node nodes IH]; intros funcs0 funcs; simpl.
  - intros [= <-] Hf. left. split; [done|]. by intros n ?%elem_of_nil.
  - destruct (resolve_node function_registry funcs0 node) as [funcs1|]
      eqn:Hnode; [|done].
    apply resolve_node_Ok in Hnode
      as (id' & fname & f' & Hid & Hfn & Hreg & ->).
    intros Hloop Hf.
    destruct (IH _ _ Hloop Hf)
      as [[Hf1 Hnone]|(n & (pre & post & -> & Hn & Hpost) & Hfunc)].
    + rewrite assoc_od_set in Hf1.
      destruct (decide (id' = id)) as [->|Hne].
      * injection Hf1 as ->. right. exists node. split; [|by exists fname].
        by exists [], nodes.
      * left. split; [done|].
        intros n [->|Hn]%elem_of_cons; [congruence|by apply Hnone].
    + right. exists n. split; [|done]. by exists (node :: pre), post.
Qed.

(** The table the loop over the nodes builds holds, under an id, the
    function of the last node entry with that id. *)
Lemma resolve_nodes_last (nodes : list entry) (funcs : odict Callable) :
  for_in (resolve_node function_registry) nodes [] = Ok funcs →
  NoDup (od_keys funcs)
  ∧ (∀ id, id ∈ od_keys funcs ↔ id ∈ node_ids nodes)
  ∧ ∀ id f,
      assoc id funcs = Some f
      ↔ ∃ node, is_last (λ n : entry, n !! "id" = Some id) nodes node
                ∧ ∃ func_name, node !! "function" = Some func_name
                    ∧ _functions function_registry !! func_name = Some f.
Proof.
  intros Hloop. split; [|split].
  - apply (for_in_resolve_node_NoDup nodes [] funcs); [apply NoDup_nil_2|done].
  - intros id.
    rewrite (for_in_resolve_node_keys function_registry nodes [] funcs Hloop).
    split; [by intros [?%elem_of_nil|?]|by right].
  - intros id f. split.
    + intros Hf.
      destruct (for_in_resolve_node_origin nodes id f [] funcs Hloop Hf)
        as [[Hnil _]|Hnode]; done.
    + intros (node & (pre & post & -> & Hid & Hpost) & fname & Hfn & Hreg).
      rewrite for_in_app in Hloop.
      destruct (for_in (resolve_node function_registry) pre [])
        as [funcs0|]; [|done].
      simpl in Hloop.
      destruct (resolve_node function_registry funcs0 node) as [funcs1|]
        eqn:Hnode; [|done].
      apply resolve_node_Ok in Hnode
        as (id' & fname' & f' & Hid' & Hfn' & Hreg' & ->).
      apply (for_in_resolve_node_keeps post id f _ funcs Hloop).
      * assert (id' = id) as -> by congruence.
        assert (f' = f) as -> by congruence.
        apply assoc_od_set_eq.
      * intros n Hn. by apply Hpost.
Qed.

(** X6.  On a description whose nodes resolve and whose edges carry
    their source and target, [json_to_dag] calls the constructor with a
    bindings table that binds parameter [p] of node [t] to node [s]
    exactly when the last edge that binds [p] of [t] has source [s]: of
    several edges into the same parameter of the same node, the last one
    wins and the others leave no trace. *)
Theorem last_edge_wins (d : dag_config) :
  nodes_of d ≠ [] →
  Forall (resolvable function_registry) (nodes_of d) →
  Forall has_source_and_target (edges_of d) →
  ∃ funcs binds,
    json_to_dag DAG_init function_registry d
    = constructed (DAG_init funcs binds)
    ∧ ∀ t p s,
        binding binds t p s
        ↔ ∃ e, is_last (binds_param t p) (edges_of d) e
               ∧ e !! "source" = Some s.
Proof.
  intros Hne Hres Hwf.
  destruct (json_to_dag_tables DAG_init function_registry d Hne Hres Hwf)
    as (funcs & binds & _ & Hbinds & Hbuild).
  exists funcs, binds. split; [done|]. by apply bind_edges_last.
Qed.

(** X7.  On such a description, [json_to_dag] calls the constructor with
    a function table that has one entry per distinct node id, and under
    an id the function named by the last node entry with that id: a
    repeated id silently replaces the earlier node. *)
Theorem last_node_wins (d : dag_config) :
  nodes_of d ≠ [] →
  Forall (resolvable function_registry) (nodes_of d) →
  Forall has_source_and_target (edges_of d) →
  ∃ funcs binds,
    json_to_dag DAG_init function_registry d
    = constructed (DAG_init funcs binds)
    ∧ NoDup (od_keys funcs)
    ∧ (∀ id, id ∈ od_keys funcs ↔ id ∈ node_ids (nodes_of d))
    ∧ ∀ id f,
        assoc id funcs = Some f
        ↔ ∃ node, is_last (λ n : entry, n !! "id" = Some id) (nodes_of d) node
                  ∧ ∃ func_name, node !! "function" = Some func_name
                      ∧ _functions function_registry !! func_name = Some f.
Proof.
  intros Hne Hres Hwf.
  destruct (json_to_dag_tables DAG_init function_registry d Hne Hres Hwf)
    as (funcs & binds & Hfuncs & _ & Hbuild).
  exists funcs, binds. split; [done|]. by apply resolve_nodes_last.
Qed.

End TablesFacts.

(** ** The DAG service and its endpoints, for any graph library *)

Section ServiceMore.
Import Registry.
Context {DAG : Type}.
Variable DAG_init : odict Callable → odict (odict string) → result DAG.
Variable DAG_call : DAG → kwargs → result pyval.
Variable function_registry : FunctionRegistry.

Local Abbreviation build := (json_to_dag DAG_init function_registry).
Local Abbreviation run_config :=
  (execute_from_config DAG_init DAG_call function_registry).

Lemma resolve_node_same funcs n1 n2 :
  same_node n1 n2 →
  resolve_node function_registry funcs n1
  = resolve_node function_registry funcs n2.
Proof. intros [Hid Hfn]. unfold resolve_node, getitem. by rewrite Hid, Hfn. Qed.

Lemma bind_edge_same binds e1 e2 :
  same_edge e1 e2 → bind_edge binds e1 = bind_edge binds e2.
Proof.
  intros (Hs & Ht & Hp). unfold bind_edge, getitem.
  by rewrite !target_input_of_spec, Hs, Ht, Hp.
Qed.

Lemma for_in_Forall2 {A S : Type} (body : S → A → result S)
    (R : A → A → Prop) xs ys :
  (∀ s x y, R x y → body s x = body s y) →
  Forall2 R xs ys → ∀ s, for_in body xs s = for_in body ys s.
Proof.
  intros Hbody Hall. induction Hall as [|x y xs ys Hxy _ IH]; intros s;
    simpl; [done|].
  rewrite (Hbody s x y Hxy). by destruct (body s y).
Qed.

(** X8.  [json_to_dag] reads nothing of a description but the [id] and
    [function] of its node entries and the [source], [target] and target
    parameter of its edge entries: two descriptions that agree on these,
    entry by entry, build to the same outcome, whatever their names,
    their params, the [output_name] of their nodes or any other field. *)
Theorem json_to_dag_reads (d1 d2 : dag_config) :
  Forall2 same_node (default [] (cfg_nodes d1)) (default [] (cfg_nodes d2)) →
  Forall2 same_edge (default [] (cfg_edges d1)) (default [] (cfg_edges d2)) →
  build d1 = build d2.
Proof.
  intros Hnodes Hedges. unfold json_to_dag.
  rewrite (for_in_Forall2 bind_edge same_edge _ _
             (λ s x y, bind_edge_same s x y) Hedges []).
  pose proof (for_in_Forall2 (resolve_node function_registry) same_node _ _
                (λ s x y, resolve_node_same s x y) Hnodes []) as Hfuncs.
  revert Hfuncs.
  destruct Hnodes as [|n1 n2 nodes1 nodes2 Hn Hnodes]; [done|].
  by intros ->.
Qed.

(** What [dag_to_json] exports never builds: whatever the graph,
    [json_to_dag] rejects its export for having no node, so exporting a
    graph and building the export does not give a graph back. *)
Lemma dag_to_json_not_rebuilt (dag : DAG) :
  build (dag_to_json dag).1
  = Raise (ValueError "DAG must have at least one node")
  ∧ ∀ inputs,
      run_config (dag_to_json dag).1 inputs
      = Ok [("status", PStr "error");
            ("error", PStr "DAG must have at least one node");
            ("dag_name", PStr "exported_dag")].
Proof. split; [reflexivity|]. intros inputs. reflexivity. Qed.

Lemma for_in_resolve_node_raises nodes : ∀ funcs e,
  for_in (resolve_node function_registry) nodes funcs = Raise e →
  e = KeyError "id" ∨ e = KeyError "function"
  ∨ ∃ func_name node_id,
      e = ValueError ("Function '" +:+ func_name +:+
            "' not found in registry for node '" +:+ node_id +:+ "'").
Proof.
  induction nodes as [|node nodes IH]; intros funcs e; simpl; [done|].
  destruct (resolve_node function_registry funcs node) as [funcs'|e']
    eqn:Hnode; [by apply IH|].
  intros [= <-]. unfold resolve_node, getitem, get_function in Hnode.
  destruct (node !! "id") as [node_id|]; simpl in Hnode;
    [|injection Hnode as <-; by left].
  destruct (node !! "function") as [func_name|]; simpl in Hnode;
    [|injection Hnode as <-; by right; left].
  destruct (_functions function_registry !! func_name); [done|].
  injection Hnode as <-. right; right. by exists func_name, node_id.
Qed.

Lemma for_in_bind_edge_raises edges : ∀ binds e,
  for_in bind_edge edges binds = Raise e →
  e = KeyError "source" ∨ e = KeyError "target".
Proof.
  induction edges as [|edge edges IH]; intros binds e; simpl; [done|].
  destruct (bind_edge binds edge) as [binds'|e'] eqn:Hedge; [by apply IH|].
  intros [= <-]. unfold bind_edge, getitem in Hedge.
  destruct (edge !! "source"); simpl in Hedge;
    [|injection Hedge as <-; by left].
  destruct (edge !! "target"); simpl in Hedge; [done|].
  injection Hedge as <-. by right.
Qed.

(** X9.  The exceptions of [json_to_dag] on a description whose [nodes]
    and [edges], when present, are lists of objects with string fields
    (the descriptions of type [dag_config]): a [ValueError] for an empty
    node list, for an unregistered function, or wrapping what the
    constructor raised; and otherwise a [KeyError], not a [ValueError],
    for a node entry without [id] or [function] or an edge entry without
    [source] or [target]. *)
Theorem json_to_dag_raises (d : dag_config) (e : exn) :
  build d = Raise e →
  e = ValueError "DAG must have at least one node"
  ∨ (∃ func_name node_id,
       e = ValueError ("Function '" +:+ func_name +:+
             "' not found in registry for node '" +:+ node_id +:+ "'"))
  ∨ (∃ cause, e = ValueError ("Error creating DAG: " +:+ exn_str cause))
  ∨ (∃ key, key ∈ ["id"; "function"; "source"; "target"]
            ∧ e = KeyError key).
Proof.
  unfold json_to_dag.
  destruct (default [] (cfg_nodes d)) as [|node nodes]; [by intros [= <-]; left|].
  destruct (for_in (resolve_node function_registry) (node :: nodes) [])
    as [funcs|e1] eqn:Hfuncs; simpl.
  - destruct (for_in bind_edge (default [] (cfg_edges d)) [])
      as [binds|e2] eqn:Hbinds; simpl.
    + destruct (DAG_init funcs binds) as [dag|cause]; simpl; [done|].
      intros [= <-]. right; right; left. by exists cause.
    + intros [= <-]. do 3 right.
      apply for_in_bind_edge_raises in Hbinds as [->| ->].
      * exists "source". split; [|done]. do 2 apply list_elem_of_further.
        apply list_elem_of_here.
      * exists "target". split; [|done]. do 3 apply list_elem_of_further.
        apply list_elem_of_here.
  - intros [= <-].
    apply for_in_resolve_node_raises in Hfuncs as [->|[->|Hfn]].
    + do 3 right. exists "id". split; [apply list_elem_of_here|done].
    + do 3 right. exists "function". split; [|done].
      apply list_elem_of_further, list_elem_of_here.
    + right; left. exact Hfn.
Qed.

(** No error of the build reads like an error of the execution. *)
Lemma build_error_not_marked (d : dag_config) (e : exn) :
  build d = Raise e →
  String.prefix "DAG execution failed: " (exn_str e) = false.
Proof.
  unfold json_to_dag.
  destruct (default [] (cfg_nodes d)) as [|node nodes]; [by intros [= <-]|].
  destruct (for_in (resolve_node function_registry) (node :: nodes) [])
    as [funcs|e1] eqn:Hfuncs; simpl.
  - destruct (for_in bind_edge (default [] (cfg_edges d)) [])
      as [binds|e2] eqn:Hbinds; simpl.
    + destruct (DAG_init funcs binds) as [dag|cause]; simpl; [done|].
      by intros [= <-].
    + intros [= <-].
      by apply for_in_bind_edge_raises in Hbinds as [->| ->].
  - intros [= <-].
    by apply for_in_resolve_node_raises in Hfuncs
      as [->|[->|(fn & id & ->)]].
Qed.


Lemma prefix_append (s t : string) : String.prefix s (s +:+ t) = true.
Proof.
  induction s as [|c s IH]; simpl; [by destruct t|].
  by destruct (ascii_dec c c).
Qed.

(** X10.  The error message of [execute_from_config] tells a failure of
    the execution from a failure of the build: it starts with "DAG
    execution failed: " exactly when the graph was built and calling it
    raised. *)
Theorem execution_failures_are_marked (d : dag_config) (inputs : kwargs)
    (out : pydict) (msg : string) :
  run_config d inputs = Ok out →
  assoc "error" out = Some (PStr msg) →
  String.prefix "DAG execution failed: " msg = true
  ↔ ∃ dag e, build d = Ok dag ∧ DAG_call dag inputs = Raise e.
Proof.
  unfold execute_from_config. intros Hout Hmsg.
  destruct (build d) as [dag|e] eqn:Hbuild; simpl in Hout.
  - unfold execute_dag in Hout.
    destruct (DAG_call dag inputs) as [v|e] eqn:Hcall; simpl in Hout;
      injection Hout as <-; simpl in Hmsg; [done|].
    injection Hmsg as <-. split; [by eauto|]. intros _.
    apply (prefix_append "DAG execution failed: ").
  - injection Hout as <-. simpl in Hmsg. injection Hmsg as <-.
    split; [|by intros (dag & e' & [=] & _)].
    intros Hprefix.
    apply build_error_not_marked in Hbuild. congruence.
Qed.

(** X11.  [POST /dag/validate] agrees with [execute_from_config]: it
    answers "valid" or "invalid" and raises nothing; a description it
    reports invalid with an error message is reported by
    [execute_from_config] as an error with the same message, whatever the
    inputs; and a description that executes with status "success" on some
    inputs is reported valid. *)
Theorem validate_agrees_with_execute (d : dag_config) :
  (∃ body, Api.validate_dag DAG_init function_registry d = Api.Json (PDict body)
           ∧ assoc "dag_name" body
             = Some (PStr (default "unnamed" (cfg_name d)))
           ∧ (assoc "status" body = Some (PStr "valid")
              ∨ assoc "status" body = Some (PStr "invalid")))
  ∧ (∀ body msg,
       Api.validate_dag DAG_init function_registry d = Api.Json (PDict body) →
       assoc "status" body = Some (PStr "invalid") →
       assoc "error" body = Some (PStr msg) →
       ∀ inputs,
         run_config d inputs
         = Ok [("status", PStr "error");
               ("error", PStr msg);
               ("dag_name", PStr (default "unnamed" (cfg_name d)))])
  ∧ (∀ inputs out,
       run_config d inputs = Ok out →
       assoc "status" out = Some (PStr "success") →
       Api.validate_dag DAG_init function_registry d
       = Api.Json (PDict [("status", PStr "valid");
                      ("dag_name", PStr (default "unnamed" (cfg_name d)));
                      ("message", PStr "DAG configuration is valid")])).
Proof.
  unfold Api.validate_dag, execute_from_config.
  destruct (build d) as [dag|e]; simpl.
  - split; [|split].
    + eexists. split; [done|]. split; [done|]. by left.
    + intros body msg [= <-]. done.
    + done.
  - split; [|split].
    + eexists. split; [done|]. split; [done|]. by right.
    + intros body msg [= <-] _ [= <-]. done.
    + intros inputs out [= <-]. done.
Qed.

(** X12.  [POST /dag/execute] never answers with its HTTP 500 "DAG
    execution error": every failure of the build or of the execution
    comes back as a returned body with status "error". *)
Theorem execute_endpoint_never_500 (d : dag_config) (inputs : kwargs) :
  ∃ body,
    Api.execute_dag DAG_init DAG_call function_registry d inputs
    = Api.Json (PDict body)
    ∧ run_config d inputs = Ok body
    ∧ (assoc "status" body = Some (PStr "success")
       ∨ assoc "status" body = Some (PStr "error")).
Proof.
  unfold Api.execute_dag, execute_from_config.
  destruct (build d) as [dag|e]; simpl.
  - destruct (execute_dag DAG_call dag inputs) as [v|e]; simpl.
    + eexists. split; [done|]. split; [done|]. by left.
    + eexists. split; [done|]. split; [done|]. by right.
  - eexists. split; [done|]. split; [done|]. by right.
Qed.

End ServiceMore.

(** X13.  On a registry obtained from a fresh one by [register] and
    [unregister] calls, [GET /functions/{name}/metadata] answers with
    the dictionary of the metadata when [get_metadata] succeeds, which
    is that of a callable without parameters registered under the name,
    and with HTTP 404 otherwise, never with HTTP 500; the detail of the
    404 is the [repr] of the message of the [KeyError], quotes included.
    A callable with a parameter that has just been registered under a
    new name is answered with that 404. *)
Theorem metadata_endpoint (repr : pyval → string) (cs : list Registry.call)
    (name : string) :
  (∀ m, Registry.get_metadata (Registry.run_calls cs) name = Ok m →
     ∃ func, registered_in cs name func
             ∧ Registry.sig_params func = []
             ∧ Api.get_function_metadata (Registry.run_calls cs) repr name
               = Api.Json (described name func))
  ∧ (¬ is_ok (Registry.get_metadata (Registry.run_calls cs) name) →
     Api.get_function_metadata (Registry.run_calls cs) repr name
     = Api.HTTPException 404
         (py_repr ("Function '" +:+ name +:+ "' not found in registry")))
  ∧ (∀ func override,
       ¬ is_ok (Registry.get_function (Registry.run_calls cs) name) →
       Registry.sig_error func = None →
       Registry.sig_params func ≠ [] →
       Registry.get_function
         (fst (Registry.register (Registry.run_calls cs) name func override))
         name
       = Ok func
       ∧ Api.get_function_metadata
           (fst (Registry.register (Registry.run_calls cs) name func override))
           repr name
         = Api.HTTPException 404
             (py_repr ("Function '" +:+ name +:+ "' not found in registry"))).
Proof.
  unfold Api.get_function_metadata, Registry.get_metadata. split; [|split].
  - intros m.
    destruct (Registry._metadata (Registry.run_calls cs) !! name) as [m'|]
      eqn:Hm; [|done].
    intros [= ->].
    destruct (run_calls_tracked cs name m Hm) as (_ & func & Hreg & Hp & ->).
    by exists func.
  - destruct (Registry._metadata (Registry.run_calls cs) !! name) as [m'|];
      [|done].
    intros Hnot. exfalso. apply Hnot. by eexists.
  - intros func override Hf%not_registered Hsig Hparams.
    pose proof (run_calls_no_function cs name Hf) as Hm.
    rewrite register_accepted
      by (rewrite Hf; apply andb_false_iff; left;
          apply bool_decide_eq_false_2; by intros [? ?]).
    rewrite (extract_metadata_params name func Hsig Hparams); simpl.
    unfold Registry.get_function; simpl.
    by rewrite lookup_insert_eq, Hm.
Qed.

(** ** The further properties on concrete registries and descriptions *)

Section MoreInstances.
Import Registry Examples.

Local Ltac resolvable_nodes :=
  repeat (apply Forall_cons; split);
  [ .. | apply Forall_nil_2 ];
  (split;
   [ rewrite node_id_lookup; by eexists
   | eexists; split; [apply node_function_lookup | vm_compute; by eexists] ]).

Lemma register_unregister_frame_witness :
  get_function (fst (register registry_with_functions "add" subtract true))
    "multiply"
  = get_function registry_with_functions "multiply"
  ∧ get_metadata (fst (register registry_with_functions "add" subtract true))
      "multiply"
    = get_metadata registry_with_functions "multiply"
  ∧ get_function (fst (unregister registry_with_functions "add")) "multiply"
    = get_function registry_with_functions "multiply"
  ∧ get_metadata (fst (unregister registry_with_functions "add")) "multiply"
    = get_metadata registry_with_functions "multiply".
Proof.
  apply (register_unregister_frame registry_with_functions "add" "multiply"
           subtract true).
  discriminate.
Defined.

Lemma register_then_unregister_witness :
  fst (unregister
         (fst (register registry_with_functions "temp" temp_func false))
         "temp")
  = registry_with_functions
  ∧ snd (register registry_with_functions "temp" temp_func false) = Ok tt
  ∧ snd (unregister
           (fst (register registry_with_functions "temp" temp_func false))
           "temp")
    = Ok tt.
Proof.
  apply (register_then_unregister
           [CallRegister "add" add false;
            CallRegister "multiply" multiply false;
            CallRegister "subtract" subtract false] "temp" temp_func false).
  vm_compute. intros [f Hf]. discriminate.
Defined.

(** The same round trip with [add], which has parameters: both calls
    raise, and the registry is given back. *)
Example register_then_unregister_add :
  register init "add" add false
  = ({| _functions := {["add" := add]}; _metadata := ∅ |},
     Raise (TypeError "list indices must be integers or slices, not str"))
  ∧ unregister (fst (register init "add" add false)) "add"
    = (init, Raise (KeyError "add")).
Proof. split; vm_compute; reflexivity. Qed.

(** After an override by a function with parameters, the name keeps the
    metadata of the function it had before. *)
Example stale_metadata :
  get_function (run_calls [CallRegister "func" func_v1 false;
                           CallRegister "func" add true]) "func"
  = Ok add
  ∧ get_metadata (run_calls [CallRegister "func" func_v1 false;
                             CallRegister "func" add true]) "func"
    = Ok (metadata_of "func" func_v1).
Proof. split; vm_compute; reflexivity. Qed.

(** The registration of [add], [multiply] and [subtract] at start-up
    leaves the three functions without metadata. *)
Example startup_registry :
  register_example_functions
    [("add", add); ("multiply", multiply); ("subtract", subtract)] init
  = registry_with_functions
  ∧ _metadata registry_with_functions = ∅.
Proof. split; vm_compute; reflexivity. Qed.

Lemma last_edge_wins_witness :
  ∃ funcs binds,
    json_to_dag keep_tables registry_with_functions dangling_overwritten
    = constructed (keep_tables funcs binds)
    ∧ ∀ t p s,
        binding binds t p s
        ↔ ∃ e, is_last (binds_param t p) (edges_of dangling_overwritten) e
               ∧ e !! "source" = Some s.
Proof.
  apply (last_edge_wins keep_tables registry_with_functions
           dangling_overwritten).
  - discriminate.
  - resolvable_nodes.
  - repeat (apply Forall_cons; split); [ .. | apply Forall_nil_2 ];
      split; vm_compute; by eexists.
Defined.

Lemma last_node_wins_witness :
  ∃ funcs binds,
    json_to_dag keep_tables registry_with_functions repeated_id
    = constructed (keep_tables funcs binds)
    ∧ NoDup (od_keys funcs)
    ∧ (∀ id, id ∈ od_keys funcs ↔ id ∈ node_ids (nodes_of repeated_id))
    ∧ ∀ id f,
        assoc id funcs = Some f
        ↔ ∃ nd, is_last (λ n : entry, n !! "id" = Some id)
                  (nodes_of repeated_id) nd
                ∧ ∃ func_name, nd !! "function" = Some func_name
                    ∧ _functions registry_with_functions !! func_name = Some f.
Proof.
  apply (last_node_wins keep_tables registry_with_functions repeated_id).
  - discriminate.
  - resolvable_nodes.
  - apply Forall_nil_2.
Defined.

(** The tables the constructor receives for the two descriptions: the
    dangling edge and the first node entry have left no trace. *)
Example overwritten_tables :
  json_to_dag keep_tables registry_with_functions dangling_overwritten
  = Ok ([("A", add); ("B", add)], [("B", [("a", "A")])])
  ∧ json_to_dag keep_tables registry_with_functions repeated_id
    = Ok ([("n", multiply)], []).
Proof. split; vm_compute; reflexivity. Qed.

Lemma json_to_dag_reads_witness :
  json_to_dag Meshed.DAG_init registry_with_functions
    create_chained_dag_example
  = json_to_dag Meshed.DAG_init registry_with_functions chained_example_bare.
Proof.
  apply (json_to_dag_reads Meshed.DAG_init registry_with_functions
           create_chained_dag_example chained_example_bare).
  - repeat constructor; vm_compute; reflexivity.
  - repeat constructor; vm_compute; reflexivity.
Defined.

Lemma json_to_dag_raises_witness :
  KeyError "id" = ValueError "DAG must have at least one node"
  ∨ (∃ func_name node_id,
       KeyError "id"
       = ValueError ("Function '" +:+ func_name +:+
           "' not found in registry for node '" +:+ node_id +:+ "'"))
  ∨ (∃ cause,
       KeyError "id" = ValueError ("Error creating DAG: " +:+ exn_str cause))
  ∨ (∃ key, key ∈ ["id"; "function"; "source"; "target"]
            ∧ KeyError "id" = KeyError key).
Proof.
  apply (json_to_dag_raises Meshed.DAG_init registry_with_functions
           missing_id (KeyError "id")).
  vm_compute. reflexivity.
Defined.

Lemma execution_failures_are_marked_witness :
  String.prefix "DAG execution failed: "
    "DAG execution failed: dependency cycle through node A" = true
  ↔ ∃ dag e,
      json_to_dag Meshed.DAG_init registry_with_functions cyclic = Ok dag
      ∧ Meshed.DAG_call dag chained_inputs = Raise e.
Proof.
  apply (execution_failures_are_marked Meshed.DAG_init Meshed.DAG_call
           registry_with_functions cyclic chained_inputs
           [("status", PStr "error");
            ("error",
             PStr "DAG execution failed: dependency cycle through node A");
            ("dag_name", PStr "cyclic")]).
  - vm_compute. reflexivity.
  - reflexivity.
Defined.

(** The two example descriptions of dag_service.py reach the constructor
    with these tables once [add] and [multiply] are registered, and
    execute on the graph library of the specification. *)
Example examples_build :
  json_to_dag Meshed.DAG_init registry_with_functions
    create_simple_dag_example
  = Ok {| Meshed.g_funcs := [("add_node", add)]; Meshed.g_binds := [] |}
  ∧ json_to_dag Meshed.DAG_init registry_with_functions
      create_chained_dag_example
    = Ok {| Meshed.g_funcs := [("add_step", add); ("multiply_step", multiply)];
            Meshed.g_binds := [("multiply_step", [("a", "add_step")])] |}.
Proof. split; vm_compute; reflexivity. Qed.

End MoreInstances.

(** ** The order of the registry *)

Section OrderFacts.
Import Registry.

Lemma list_to_map_assoc {V : Type} (d : odict V) k :
  (list_to_map d : gmap string V) !! k = assoc k d.
Proof.
  induction d as [|[k' v] d IH]; simpl; [done|].
  destruct (decide (k = k')) as [->|Hne].
  - by rewrite lookup_insert_eq.
  - by rewrite lookup_insert_ne.
Qed.

Lemma od_del_cons {V : Type} (d : odict V) k k1 v1 :
  od_del ((k1, v1) :: d) k
  = if decide (k1 ≠ k) then (k1, v1) :: od_del d k else od_del d k.
Proof. reflexivity. Qed.

Lemma filter_ne_cons (ks : list string) (k k1 : string) :
  filter (λ k', k' ≠ k) (k1 :: ks)
  = if decide (k1 ≠ k) then k1 :: filter (λ k', k' ≠ k) ks
    else filter (λ k', k' ≠ k) ks.
Proof. reflexivity. Qed.

Lemma assoc_od_del {V : Type} (d : odict V) k k' :
  assoc k' (od_del d k) = if decide (k = k') then None else assoc k' d.
Proof.
  induction d as [|[k1 v1] d IH].
  - by destruct (decide (k = k')).
  - rewrite od_del_cons. destruct (decide (k1 ≠ k)) as [Hne|Heq]; simpl.
    + rewrite IH. destruct (decide (k = k')) as [<-|Hne'].
      * by rewrite decide_False.
      * done.
    + apply dec_stable in Heq as ->. rewrite IH.
      destruct (decide (k = k')) as [<-|Hne']; [done|].
      by rewrite decide_False.
Qed.

Lemma od_keys_od_del {V : Type} (d : odict V) k :
  od_keys (od_del d k) = filter (λ k', k' ≠ k) (od_keys d).
Proof.
  induction d as [|[k1 v1] d IH]; [done|].
  rewrite od_del_cons. unfold od_keys in *; simpl. rewrite filter_ne_cons.
  destruct (decide (k1 ≠ k)); simpl; by rewrite IH.
Qed.

Lemma list_to_map_od_set {V : Type} (d : odict V) k v :
  (list_to_map (od_set d k v) : gmap string V) = <[k := v]> (list_to_map d).
Proof.
  apply map_eq. intros k'. rewrite list_to_map_assoc, assoc_od_set.
  destruct (decide (k = k')) as [<-|Hne].
  - by rewrite lookup_insert_eq.
  - by rewrite lookup_insert_ne, list_to_map_assoc.
Qed.

Lemma list_to_map_od_del {V : Type} (d : odict V) k :
  (list_to_map (od_del d k) : gmap string V) = delete k (list_to_map d).
Proof.
  apply map_eq. intros k'. rewrite list_to_map_assoc, assoc_od_del.
  destruct (decide (k = k')) as [<-|Hne].
  - by rewrite lookup_delete_eq.
  - by rewrite lookup_delete_ne, list_to_map_assoc.
Qed.

(** Forgetting the order turns the methods of the ordered registry into
    those of [Registry]. *)
Lemma forget_register self name func override :
  OrderedRegistry.forget (fst (OrderedRegistry.register self name func override))
  = fst (register (OrderedRegistry.forget self) name func override)
  ∧ snd (OrderedRegistry.register self name func override)
    = snd (register (OrderedRegistry.forget self) name func override).
Proof.
  unfold OrderedRegistry.register, register, OrderedRegistry.forget; simpl.
  rewrite list_to_map_assoc.
  destruct (bool_decide _ && negb override); simpl; [done|].
  destruct (_extract_metadata name func); simpl;
    by rewrite !list_to_map_od_set.
Qed.

Lemma forget_unregister self name :
  OrderedRegistry.forget (fst (OrderedRegistry.unregister self name))
  = fst (unregister (OrderedRegistry.forget self) name)
  ∧ snd (OrderedRegistry.unregister self name)
    = snd (unregister (OrderedRegistry.forget self) name).
Proof.
  unfold OrderedRegistry.unregister, unregister, OrderedRegistry.forget; simpl.
  rewrite !list_to_map_assoc.
  destruct (assoc name (OrderedRegistry._functions self)); simpl; [|done].
  destruct (assoc name (OrderedRegistry._metadata self)); simpl;
    by rewrite ?list_to_map_od_del.
Qed.

Lemma forget_run_calls cs :
  OrderedRegistry.forget (OrderedRegistry.run_calls cs) = run_calls cs.
Proof.
  unfold OrderedRegistry.run_calls, run_calls.
  assert (OrderedRegistry.forget OrderedRegistry.init = init) as Hinit
    by done.
  revert Hinit. generalize init. generalize OrderedRegistry.init.
  induction cs as [|c cs IH]; intros o r Hor; simpl; [done|].
  apply IH. subst r. destruct c; simpl.
  - apply forget_register.
  - apply forget_unregister.
Qed.

Lemma forget_lookups self name :
  OrderedRegistry.get_function self name
  = get_function (OrderedRegistry.forget self) name
  ∧ OrderedRegistry.get_metadata self name
    = get_metadata (OrderedRegistry.forget self) name.
Proof.
  unfold OrderedRegistry.get_function, OrderedRegistry.get_metadata,
    get_function, get_metadata, OrderedRegistry.forget; simpl.
  by rewrite !list_to_map_assoc.
Qed.

(** Both dictionaries of the ordered registry keep their keys
    distinct. *)
Lemma run_call_NoDup self c :
  NoDup (od_keys (OrderedRegistry._functions self))
  ∧ NoDup (od_keys (OrderedRegistry._metadata self)) →
  NoDup (od_keys (OrderedRegistry._functions (OrderedRegistry.run_call self c)))
  ∧ NoDup (od_keys (OrderedRegistry._metadata
                      (OrderedRegistry.run_call self c))).
Proof.
  intros [Hf Hm]. destruct c as [name func override|name]; simpl.
  - unfold OrderedRegistry.register.
    destruct (bool_decide _ && negb override); simpl; [done|].
    destruct (_extract_metadata name func); simpl;
      split; try done; by apply NoDup_od_keys_od_set.
  - unfold OrderedRegistry.unregister.
    destruct (assoc name (OrderedRegistry._functions self)); simpl; [|done].
    destruct (assoc name (OrderedRegistry._metadata self)); simpl;
      rewrite ?od_keys_od_del; split; try done; by apply NoDup_filter.
Qed.

Lemma run_calls_NoDup cs :
  NoDup (od_keys (OrderedRegistry._functions (OrderedRegistry.run_calls cs)))
  ∧ NoDup (od_keys (OrderedRegistry._metadata
                      (OrderedRegistry.run_calls cs))).
Proof.
  unfold OrderedRegistry.run_calls.
  assert (NoDup (od_keys (OrderedRegistry._functions OrderedRegistry.init))
          ∧ NoDup (od_keys (OrderedRegistry._metadata OrderedRegistry.init)))
    as Hinit by (split; apply NoDup_nil_2).
  revert Hinit. generalize OrderedRegistry.init.
  induction cs as [|c cs IH]; intros self Hself; simpl; [done|].
  apply IH. by apply run_call_NoDup.
Qed.

Lemma od_keys_get_all_metadata repr self :
  od_keys (OrderedRegistry.get_all_metadata repr self)
  = od_keys (OrderedRegistry._metadata self).
Proof.
  unfold OrderedRegistry.get_all_metadata, od_keys. by rewrite map_map.
Qed.

Lemma ordered_lookup_ok {V : Type} (d : odict V) (name msg : string) :
  name ∈ od_keys d
  ↔ is_ok (match assoc name d with
           | None => Raise (KeyError msg)
           | Some v => Ok v
           end).
Proof.
  rewrite <- assoc_is_Some. destruct (assoc name d) as [v|]; split.
  - intros _. apply is_ok_Ok.
  - by eauto.
  - by intros [? ?].
  - by intros ?%not_is_ok_Raise.
Qed.

(** X14.  In every registry obtained from a fresh one by [register] and
    [unregister] calls, [list_functions] lists each registered name once
    and a name is listed exactly when [get_function] succeeds on it; the
    keys of [get_all_metadata] are, each once, the names on which
    [get_metadata] succeeds, and all of them are listed by
    [list_functions]. *)
Theorem list_functions_names (repr : pyval → string) (cs : list call) :
  NoDup (OrderedRegistry.list_functions (OrderedRegistry.run_calls cs))
  ∧ (∀ name,
       name ∈ OrderedRegistry.list_functions (OrderedRegistry.run_calls cs)
       ↔ is_ok (OrderedRegistry.get_function
                  (OrderedRegistry.run_calls cs) name))
  ∧ NoDup (od_keys (OrderedRegistry.get_all_metadata repr
                      (OrderedRegistry.run_calls cs)))
  ∧ (∀ name,
       name ∈ od_keys (OrderedRegistry.get_all_metadata repr
                         (OrderedRegistry.run_calls cs))
       ↔ is_ok (OrderedRegistry.get_metadata
                  (OrderedRegistry.run_calls cs) name))
  ∧ (∀ name,
       name ∈ od_keys (OrderedRegistry.get_all_metadata repr
                         (OrderedRegistry.run_calls cs))
       → name ∈ OrderedRegistry.list_functions
                  (OrderedRegistry.run_calls cs)).
Proof.
  destruct (run_calls_NoDup cs) as [Hf Hm].
  rewrite od_keys_get_all_metadata.
  unfold OrderedRegistry.list_functions, OrderedRegistry.get_function,
    OrderedRegistry.get_metadata.
  split; [done|]. split; [intros name; apply ordered_lookup_ok|].
  split; [done|]. split; [intros name; apply ordered_lookup_ok|].
  intros name [m Hname]%assoc_is_Some. apply assoc_is_Some.
  rewrite <- !list_to_map_assoc in *.
  pose proof (forget_run_calls cs) as Hforget.
  unfold OrderedRegistry.forget in Hforget.
  apply (f_equal _functions) in Hforget as Hfuncs.
  apply (f_equal _metadata) in Hforget as Hmeta.
  simpl in Hfuncs, Hmeta. rewrite Hfuncs. rewrite Hmeta in Hname.
  by apply (run_calls_tracked cs name m).
Qed.

(** X15.  [register] keeps the order of the names, whether it returns or
    raises: a name that is already listed stays where it is, also when
    its function is replaced, and a new name goes to the end;
    [unregister] removes the name and keeps the order of the others. *)
Theorem list_functions_order (self : OrderedRegistry.FunctionRegistry)
    (name : string) (func : Callable) (override : bool) :
  OrderedRegistry.list_functions
    (fst (OrderedRegistry.register self name func override))
  = (if bool_decide (name ∈ OrderedRegistry.list_functions self)
     then OrderedRegistry.list_functions self
     else OrderedRegistry.list_functions self ++ [name])
  ∧ OrderedRegistry.list_functions (fst (OrderedRegistry.unregister self name))
    = filter (λ other, other ≠ name) (OrderedRegistry.list_functions self).
Proof.
  unfold OrderedRegistry.list_functions. split.
  - unfold OrderedRegistry.register.
    destruct (bool_decide (is_Some _)) eqn:Hin; simpl.
    + apply bool_decide_eq_true in Hin. apply assoc_is_Some in Hin.
      rewrite bool_decide_eq_true_2 by done.
      destruct override; simpl; [|done].
      destruct (_extract_metadata name func); simpl;
        by rewrite od_keys_od_set, bool_decide_eq_true_2.
    + destruct (_extract_metadata name func); simpl; by rewrite od_keys_od_set.
  - unfold OrderedRegistry.unregister.
    destruct (assoc name (OrderedRegistry._functions self)) as [f|] eqn:Hf;
      simpl.
    + destruct (assoc name (OrderedRegistry._metadata self)); simpl;
        apply od_keys_od_del.
    + assert (name ∉ od_keys (OrderedRegistry._functions self)) as Hnot.
      { rewrite <- assoc_is_Some, Hf. by intros [? ?]. }
      induction (od_keys (OrderedRegistry._functions self)) as [|k ks IH];
        [done|].
      apply not_elem_of_cons in Hnot as [Hne Hnot].
      rewrite filter_ne_cons. destruct (decide (k ≠ name)); [|done].
      by rewrite <- IH.
Qed.

(** The keys of [get_all_metadata] need not come in the order of
    [list_functions]: [a] is registered first and gets its metadata
    last. *)
Example metadata_order_differs :
  OrderedRegistry.list_functions
    (OrderedRegistry.run_calls
       [CallRegister "a" Examples.add false;
        CallRegister "b" Examples.temp_func false;
        CallRegister "a" Examples.func_v1 true])
  = ["a"; "b"]
  ∧ od_keys (OrderedRegistry._metadata
               (OrderedRegistry.run_calls
                  [CallRegister "a" Examples.add false;
                   CallRegister "b" Examples.temp_func false;
                   CallRegister "a" Examples.func_v1 true]))
    = ["b"; "a"].
Proof. split; vm_compute; reflexivity. Qed.

End OrderFacts.

(** ** The key transforms of the sub-stores *)

Section StoreKeys.
Import RootStore.

Lemma prefix_refl (s : string) : String.prefix s s = true.
Proof.
  induction s as [|c s IH]; simpl; [done|]. by destruct (ascii_dec c c).
Qed.

Lemma contains_unfold ext c s :
  contains ext (String c s)
  = String.prefix ext (String c s) || contains ext s.
Proof. reflexivity. Qed.

Lemma endswith_unfold ext c s :
  endswith ext (String c s)
  = if String.eqb (String c s) ext then true else endswith ext s.
Proof. reflexivity. Qed.

Lemma endswith_contains ext s :
  ext ≠ EmptyString → endswith ext s = true → contains ext s = true.
Proof.
  intros Hext. induction s as [|c s IH].
  - simpl. by destruct ext.
  - rewrite endswith_unfold, contains_unfold.
    destruct (String.eqb_spec (String c s) ext) as [<-|Hne].
    + intros _. by rewrite prefix_refl.
    + intros Hs. rewrite IH by done. apply orb_true_r.
Qed.

Lemma prefix_cons a s1 b s2 :
  String.prefix (String a s1) (String b s2)
  = if decide (a = b) then String.prefix s1 s2 else false.
Proof. simpl. by destruct (ascii_dec a b), (decide (a = b)). Qed.

Lemma prefix_nil s : String.prefix "" s = true.
Proof. by destruct s. Qed.

Lemma append_cons c s t : String c s +:+ t = String c (s +:+ t).
Proof. reflexivity. Qed.

Lemma append_nil t : "" +:+ t = t.
Proof. reflexivity. Qed.

Local Ltac prefix_cases :=
  rewrite ?append_cons, ?append_nil in *;
  rewrite ?contains_unfold, ?prefix_cons, ?prefix_nil in *;
  repeat (case_decide; [subst|]; try done;
          rewrite ?prefix_cons, ?prefix_nil in * ).

(** No occurrence of the extension starts inside a key that holds none
    and ends in the extension appended to it. *)
Lemma json_no_straddle c k :
  contains ".json" (String c k) = false →
  String.prefix ".json" (String c k +:+ ".json") = false.
Proof.
  intros Hk.
  destruct (String.prefix ".json" (String c k +:+ ".json")) eqn:Hp; [|done].
  exfalso.
  destruct k as [|c2 [|c3 [|c4 [|c5 k]]]]; prefix_cases.
Qed.

Lemma pkl_no_straddle c k :
  contains ".pkl" (String c k) = false →
  String.prefix ".pkl" (String c k +:+ ".pkl") = false.
Proof.
  intros Hk.
  destruct (String.prefix ".pkl" (String c k +:+ ".pkl")) eqn:Hp; [|done].
  exfalso.
  destruct k as [|c2 [|c3 [|c4 k]]]; prefix_cases.
Qed.

Lemma replace_from_cons old new c s :
  replace_from old new 0 (String c s)
  = if String.prefix old (String c s)
    then new +:+ replace_from old new (String.length old - 1) s
    else String c (replace_from old new 0 s).
Proof. reflexivity. Qed.

Lemma replace_appended ext :
  (∀ c k, contains ext (String c k) = false →
          String.prefix ext (String c k +:+ ext) = false) →
  replace ext "" ext = "" →
  ∀ k, contains ext k = false → replace ext "" (k +:+ ext) = k.
Proof.
  intros Hstraddle Hself. induction k as [|c k IH]; intros Hk.
  - by rewrite append_nil.
  - pose proof (Hstraddle c k Hk) as Hp.
    rewrite contains_unfold in Hk. apply orb_false_iff in Hk as [_ Hk].
    rewrite append_cons in *. unfold replace in *.
    rewrite replace_from_cons, Hp. by rewrite IH.
Qed.

(** X16.  The key transforms of the sub-stores undo each other on the
    ids that do not contain the extension of the store: for such an id,
    [id_of_key] gives back the id that [key_of_id] extended. *)
Theorem store_key_round_trip (ext k : string) :
  ext ∈ [".pkl"; ".json"] →
  contains ext k = false →
  key_of_id ext k = k +:+ ext ∧ id_of_key ext (key_of_id ext k) = k.
Proof.
  intros Hext Hk.
  assert (endswith ext k = false) as Hend.
  { destruct (endswith ext k) eqn:Hend; [|done].
    apply endswith_contains in Hend; [congruence|].
    apply elem_of_cons in Hext as [->|Hext]; [done|].
    apply list_elem_of_singleton in Hext as ->. done. }
  unfold key_of_id, id_of_key. rewrite Hend. split; [done|].
  apply elem_of_cons in Hext as [->|Hext].
  - apply replace_appended; [apply pkl_no_straddle|reflexivity|done].
  - apply list_elem_of_singleton in Hext as ->.
    apply replace_appended; [apply json_no_straddle|reflexivity|done].
Qed.

Lemma store_key_round_trip_witness :
  key_of_id ".json" "my_dag" = "my_dag.json"
  ∧ id_of_key ".json" (key_of_id ".json" "my_dag") = "my_dag".
Proof.
  apply (store_key_round_trip ".json" "my_dag").
  - apply list_elem_of_further, list_elem_of_here.
  - reflexivity.
Defined.

(** An id that contains the extension does not come back: the extension
    is removed wherever it occurs. *)
Example store_key_lost :
  id_of_key ".json" (key_of_id ".json" "model.json") = "model"
  ∧ id_of_key ".json" (key_of_id ".json" "a.json.bak") = "a.bak"
  ∧ id_of_key ".pkl" (key_of_id ".pkl" "f.pkl.old") = "f.old".
Proof. repeat split; vm_compute; reflexivity. Qed.

End StoreKeys.
